(** * Fraud Detection API: sanitizer, prompt builder, response parser

    A shallow embedding of [main.py].  Python [str] values are modelled as
    lists of characters; a character is a code point in the range
    U+0000..U+00FF (Rocq's [ascii]), and the character predicates below are
    Python's Unicode predicates restricted to that range.  Code points above
    U+00FF are outside the model.

    The regular expressions of the source are kept as data ([regex]) and run
    by a backtracking matcher that follows the priorities of Python's [re]
    module (greedy and lazy repetition, ordered alternation, atomic
    lookahead). *)

From Stdlib Require Import List Ascii Bool Arith Lia.
From Stdlib Require String.
Import ListNotations String.StringSyntax.

Set Implicit Arguments.

Delimit Scope string_scope with string.

(** ** Characters and strings *)

Module PyStr.

Definition str := list ascii.

Definition chars (s : String.string) : str := String.list_ascii_of_string s.

Arguments chars s%_string.

Definition code (c : ascii) : nat := nat_of_ascii c.

Definition between (lo hi n : nat) : bool := (lo <=? n) && (n <=? hi).

(** [str.isspace] for one character, also the class [\s] of [re]. *)
Definition isspace (c : ascii) : bool :=
  let n := code c in
  between 9 13 n || between 28 32 n || (n =? 133) || (n =? 160).

(** [str.isdigit] for one character: the decimal digits and the
    superscript digits U+00B2, U+00B3, U+00B9. *)
Definition isdigit_char (c : ascii) : bool :=
  let n := code c in
  between 48 57 n || between 178 179 n || (n =? 185).

(** The class [\w] of [re] on [str] patterns: alphanumeric or underscore. *)
Definition isword (c : ascii) : bool :=
  let n := code c in
  between 48 57 n || between 65 90 n || (n =? 95) || between 97 122 n
  || (n =? 170) || between 178 179 n || (n =? 181) || between 185 186 n
  || between 188 190 n || between 192 214 n || between 216 246 n
  || between 248 255 n.

(** [str.lower] for one character. *)
Definition lower_char (c : ascii) : ascii :=
  let n := code c in
  if between 65 90 n || between 192 214 n || between 216 222 n
  then ascii_of_nat (n + 32) else c.

Definition lower (s : str) : str := map lower_char s.

(** Equality of two characters under [re.IGNORECASE]. *)
Definition ieq (c d : ascii) : bool := Ascii.eqb (lower_char c) (lower_char d).

Fixpoint str_eqb (a b : str) : bool :=
  match a, b with
  | [], [] => true
  | c :: a', d :: b' => Ascii.eqb c d && str_eqb a' b'
  | _, _ => false
  end.

(** [str.lstrip], [str.rstrip] and [str.strip] with no argument. *)
Fixpoint lstrip (s : str) : str :=
  match s with
  | c :: s' => if isspace c then lstrip s' else s
  | [] => []
  end.

Definition rstrip (s : str) : str := rev (lstrip (rev s)).

Definition strip (s : str) : str := rstrip (lstrip s).

(** [str.isdigit]: every character is a digit and there is at least one. *)
Definition isdigit (s : str) : bool :=
  match s with
  | [] => false
  | _ => forallb isdigit_char s
  end.

(** [str.split(sep)] for a one-character separator: the result is never
    empty, and the empty string splits to one empty segment. *)
Fixpoint split (sep : ascii) (s : str) : list str :=
  match s with
  | [] => [[]]
  | c :: s' =>
      if Ascii.eqb c sep then [] :: split sep s'
      else match split sep s' with
           | seg :: segs => (c :: seg) :: segs
           | [] => [[c]]
           end
  end.

(** Truth value of a string: non-empty. *)
Definition truthy (s : str) : bool :=
  match s with [] => false | _ => true end.

End PyStr.

Import PyStr.

(** ** Regular expressions *)

Module Re.

Inductive cls := Space | Word | Any.

Definition in_cls (k : cls) (c : ascii) : bool :=
  match k with
  | Space => isspace c
  | Word => isword c
  | Any => true          (* [.] under [re.DOTALL] *)
  end.

(** The fragment of the pattern language that [main.py] uses.  All patterns
    are compiled with [re.IGNORECASE]; the ones with [.] also with
    [re.DOTALL]. *)
Inductive regex :=
| Eps
| Chr (c : ascii)             (* a literal character *)
| Eos                         (* [$] *)
| Cat (r1 r2 : regex)
| Alt (r1 r2 : regex)         (* [r1|r2] *)
| Star (k : cls)              (* [k*], greedy *)
| Plus (k : cls)              (* [k+], greedy *)
| PlusLazy (k : cls)          (* [k+?] *)
| Grp (r : regex)             (* [( r )], group 1 *)
| Ahead (r : regex).          (* [(?= r )] *)

Fixpoint lit (s : str) : regex :=
  match s with
  | [] => Eps
  | c :: s' => Cat (Chr c) (lit s')
  end.

Fixpoint cat (rs : list regex) : regex :=
  match rs with
  | [] => Eps
  | [r] => r
  | r :: rs' => Cat r (cat rs')
  end.

(** [$] without [re.MULTILINE]: at the end of the text, or just before a
    newline that ends the text. *)
Definition at_eos (s : str) : bool :=
  match s with
  | [] => true
  | [c] => Ascii.eqb c "010"%char
  | _ => false
  end.

Definition orelse {R} (a b : option R) : option R :=
  match a with Some x => Some x | None => b end.

Section Repeat.
Variable R : Type.
Variable p : ascii -> bool.
Variable k : str -> option R.

(** Greedy [p*]: take one more character first, fall back to stopping. *)
Fixpoint star (s : str) : option R :=
  match s with
  | c :: s' => if p c then orelse (star s') (k s) else k s
  | [] => k s
  end.

Definition plus (s : str) : option R :=
  match s with
  | c :: s' => if p c then star s' else None
  | [] => None
  end.

(** Lazy [p+?]: stop as soon as the continuation accepts. *)
Fixpoint plus_lazy (s : str) : option R :=
  match s with
  | c :: s' => if p c then orelse (k s') (plus_lazy s') else None
  | [] => None
  end.
End Repeat.

(** The matcher: [run r s g k] matches [r] at the start of [s] with group 1
    currently [g], and hands the text that remains and the group to [k];
    [None] makes it backtrack. *)
Fixpoint run (R : Type) (r : regex) (s : str) (g : option str)
    (k : str -> option str -> option R) : option R :=
  match r with
  | Eps => k s g
  | Chr c =>
      match s with
      | d :: s' => if ieq c d then k s' g else None
      | [] => None
      end
  | Eos => if at_eos s then k s g else None
  | Cat r1 r2 => run r1 s g (fun s' g' => run r2 s' g' k)
  | Alt r1 r2 => orelse (run r1 s g k) (run r2 s g k)
  | Star c => star (in_cls c) (fun s' => k s' g) s
  | Plus c => plus (in_cls c) (fun s' => k s' g) s
  | PlusLazy c => plus_lazy (in_cls c) (fun s' => k s' g) s
  | Grp r1 =>
      run r1 s g (fun s' _ => k s' (Some (firstn (length s - length s') s)))
  | Ahead r1 =>
      match run r1 s g (fun _ g' => Some g') with
      | Some g' => k s g'
      | None => None
      end
  end.

(** A match object: the text after the match and group 1. *)
Record Match := { rest : str; group1 : option str }.

Definition match_at (r : regex) (s : str) : option Match :=
  run r s None (fun s' g => Some {| rest := s'; group1 := g |}).

(** The first suffix of [s], from the left, on which [f] has a result. *)
Fixpoint leftmost {A} (f : str -> option A) (s : str) : option A :=
  match f s with
  | Some m => Some m
  | None =>
      match s with
      | [] => None
      | _ :: s' => leftmost f s'
      end
  end.

(** [re.search]: the match at the leftmost position that has one. *)
Definition search (r : regex) (s : str) : option Match :=
  leftmost (match_at r) s.

(** [re.sub(r, "", s)]: scan left to right; where [r] matches, drop the
    matched characters and go on after them.  [skip] counts the characters
    of the current match still to drop.  An empty match replaces nothing. *)
Fixpoint sub_from (r : regex) (skip : nat) (s : str) : str :=
  match s with
  | [] => []
  | c :: s' =>
      match skip with
      | S n => sub_from r n s'
      | O =>
          match match_at r s with
          | Some m =>
              match length s - length (rest m) with
              | S n => sub_from r n s'
              | O => c :: sub_from r 0 s'
              end
          | None => c :: sub_from r 0 s'
          end
      end
  end.

Definition sub (r : regex) (s : str) : str := sub_from r 0 s.

End Re.

Import Re.

(** ** Exceptions *)

Inductive exn :=
| ValueError (msg : str)
| AttributeError
| IndexError
| ClientError (msg : str)               (* anything the model client raises *)
| HTTPException (status : nat) (detail : str).

Inductive result (A : Type) :=
| Ok (a : A)
| Raise (e : exn).

Arguments Ok {A} a.
Arguments Raise {A} e.

Definition bind {A B} (x : result A) (f : A -> result B) : result B :=
  match x with
  | Ok a => f a
  | Raise e => Raise e
  end.

Notation "x <- e1 ;; e2" := (bind e1 (fun x => e2))
  (at level 61, e1 at next level, right associativity).

(** [str(e)] as the handler of [analyze_transaction] uses it. *)
Definition exn_str (e : exn) : str :=
  match e with
  | ValueError msg => msg
  | AttributeError => chars "'NoneType' object has no attribute 'lower'"
  | IndexError => chars "list index out of range"
  | ClientError msg => msg
  | HTTPException _ detail => detail
  end.

(** ** The request model *)

(** [TransactionRequest.validate_card_last_four].  The validator sees the
    value pydantic already checked to be a string or [None]. *)
Definition truthy_opt (v : option str) : bool :=
  match v with
  | Some s => truthy s
  | None => false
  end.

Definition validate_card_last_four (v : option str) : result (option str) :=
  if truthy_opt v && negb (length (match v with Some s => s | None => [] end) =? 4)
  then Raise (ValueError (chars "Only last 4 digits of card allowed"))
  else if truthy_opt v && negb (isdigit (match v with Some s => s | None => [] end))
  then Raise (ValueError (chars "Card digits must be numeric"))
  else Ok v.

(** ** sanitize_input *)

Definition injection_patterns : list regex :=
  [ cat [lit (chars "ignore"); Plus Space; lit (chars "previous");
         Plus Space; lit (chars "instructions")];
    cat [lit (chars "ignore"); Plus Space; lit (chars "above")];
    cat [lit (chars "disregard"); Plus Space; lit (chars "previous")];
    cat [lit (chars "system"); Star Space; lit (chars ":")];
    cat [lit (chars "assistant"); Star Space; lit (chars ":")];
    cat [lit (chars "user"); Star Space; lit (chars ":")] ].

Definition sanitize_input (text : str) : str :=
  let sanitized :=
    fold_left (fun sanitized pattern => sub pattern sanitized)
              injection_patterns text in
  strip sanitized.

(** ** parse_claude_response *)

Record Analysis := {
  risk_level : str;
  confidence : str;
  reasoning : str;
  red_flags : list str;
  recommendations : str
}.

Definition set_risk_level (d : Analysis) (v : str) : Analysis :=
  {| risk_level := v; confidence := confidence d; reasoning := reasoning d;
     red_flags := red_flags d; recommendations := recommendations d |}.

Definition set_confidence (d : Analysis) (v : str) : Analysis :=
  {| risk_level := risk_level d; confidence := v; reasoning := reasoning d;
     red_flags := red_flags d; recommendations := recommendations d |}.

Definition set_reasoning (d : Analysis) (v : str) : Analysis :=
  {| risk_level := risk_level d; confidence := confidence d; reasoning := v;
     red_flags := red_flags d; recommendations := recommendations d |}.

Definition set_red_flags (d : Analysis) (v : list str) : Analysis :=
  {| risk_level := risk_level d; confidence := confidence d;
     reasoning := reasoning d; red_flags := v;
     recommendations := recommendations d |}.

Definition set_recommendations (d : Analysis) (v : str) : Analysis :=
  {| risk_level := risk_level d; confidence := confidence d;
     reasoning := reasoning d; red_flags := red_flags d;
     recommendations := v |}.

Definition default_analysis : Analysis :=
  {| risk_level := chars "unknown"; confidence := chars "unknown";
     reasoning := []; red_flags := []; recommendations := [] |}.

(** [m.group(1)] followed by a string method: a group that took no part in
    the match is [None], and the method call on it raises. *)
Definition group_1 (m : Match) : result str :=
  match group1 m with
  | Some s => Ok s
  | None => Raise AttributeError
  end.

Definition risk_re : regex :=
  cat [lit (chars "RISK_LEVEL:"); Star Space; Grp (Plus Word)].

Definition conf_re : regex :=
  cat [lit (chars "CONFIDENCE:"); Star Space; Grp (Plus Word)].

Definition reason_re : regex :=
  cat [lit (chars "REASONING:"); Star Space; Grp (PlusLazy Any);
       Ahead (Alt (lit (chars "RED_FLAGS:")) Eos)].

Definition flags_re : regex :=
  cat [lit (chars "RED_FLAGS:"); Star Space; Grp (PlusLazy Any);
       Ahead (Alt (lit (chars "RECOMMENDATIONS:")) Eos)].

Definition rec_re : regex :=
  cat [lit (chars "RECOMMENDATIONS:"); Star Space; Grp (Plus Any)].

(** The list comprehension [[f.strip() for f in ... if f.strip()]]. *)
Definition stripped_segments (segs : list str) : list str :=
  map strip (filter (fun f => truthy (strip f)) segs).

Definition parse_claude_response (response_text : str) : result Analysis :=
  let result := default_analysis in
  (* Extract risk level *)
  result <- match search risk_re response_text with
            | Some risk_match =>
                g <- group_1 risk_match ;; Ok (set_risk_level result (lower g))
            | None => Ok result
            end ;;
  (* Extract confidence *)
  result <- match search conf_re response_text with
            | Some conf_match =>
                g <- group_1 conf_match ;; Ok (set_confidence result (lower g))
            | None => Ok result
            end ;;
  (* Extract reasoning *)
  result <- match search reason_re response_text with
            | Some reason_match =>
                g <- group_1 reason_match ;; Ok (set_reasoning result (strip g))
            | None => Ok result
            end ;;
  (* Extract red flags *)
  result <- match search flags_re response_text with
            | Some flags_match =>
                g <- group_1 flags_match ;;
                let flags_text := strip g in
                if negb (str_eqb (lower flags_text) (chars "none"))
                then Ok (set_red_flags result
                           (stripped_segments (split ","%char flags_text)))
                else Ok result
            | None => Ok result
            end ;;
  (* Extract recommendations *)
  result <- match search rec_re response_text with
            | Some rec_match =>
                g <- group_1 rec_match ;;
                Ok (set_recommendations result (strip g))
            | None => Ok result
            end ;;
  Ok result.

(** ** build_fraud_prompt and analyze_transaction *)

Definition nl : ascii := "010"%char.
Definition dquote : ascii := "034"%char.

Fixpoint join_lines (ls : list str) : str :=
  match ls with
  | [] => []
  | [l] => l
  | l :: ls' => l ++ nl :: join_lines ls'
  end.

(** The lines of the f-string that follow the transaction details and do
    not depend on the transaction. *)
Definition prompt_instructions : list str :=
  [ [];
    chars "Analyze this transaction for fraud indicators. Consider:";
    chars "1. Amount appropriateness for category";
    chars "2. Unusual location patterns (e.g., high-risk regions)";
    chars "3. Merchant reputation concerns";
    chars "4. Time-of-day patterns";
    chars "5. Round number amounts (common in fraud)";
    [];
    chars "Provide your analysis in this exact format:";
    [];
    chars "RISK_LEVEL: [low/medium/high]";
    chars "CONFIDENCE: [low/medium/high]";
    chars "REASONING: [2-3 sentences explaining your assessment]";
    chars "RED_FLAGS: [comma-separated list of concerns, or "
      ++ dquote :: chars "none" ++ dquote :: chars "]";
    chars "RECOMMENDATIONS: [1-2 sentence action recommendation]";
    [];
    chars "Be specific and practical. Focus on concrete indicators." ].

Section Service.

(** The amount is a Python float; its type and the rendering [:.2f] are
    left abstract. *)
Variable Amount : Type.
Variable format_2f : Amount -> str.

Record TransactionRequest := {
  transaction_id : str;
  amount : Amount;
  merchant : str;
  category : str;
  location : str;
  timestamp : str;
  card_last_four : option str
}.

Record FraudAnalysisResponse := {
  resp_transaction_id : str;
  resp_risk_level : str;
  resp_confidence : str;
  resp_reasoning : str;
  resp_red_flags : list str;
  resp_recommendations : str
}.

(** [transaction.card_last_four or 'XXXX'] *)
Definition card_or_mask (v : option str) : str :=
  match v with
  | Some s => if truthy s then s else chars "XXXX"
  | None => chars "XXXX"
  end.

Definition prompt_details (transaction : TransactionRequest) : list str :=
  let merchant := sanitize_input (merchant transaction) in
  let category := sanitize_input (category transaction) in
  let location := sanitize_input (location transaction) in
  [ chars "You are a fraud detection expert analyzing a credit card transaction.";
    [];
    chars "Transaction Details:";
    chars "- Amount: $" ++ format_2f (amount transaction);
    chars "- Merchant: " ++ merchant;
    chars "- Category: " ++ category;
    chars "- Location: " ++ location;
    chars "- Time: " ++ timestamp transaction;
    chars "- Card: ****" ++ card_or_mask (card_last_four transaction) ].

Definition build_fraud_prompt (transaction : TransactionRequest) : str :=
  join_lines (prompt_details transaction ++ prompt_instructions).

(** The call [anthropic_client.messages.create(...)]: its arguments, and a
    client that returns the texts of the content blocks of the message or
    raises. *)
Record CreateArgs := {
  model : str;
  max_tokens : nat;
  temperature_tenths : nat;
  content : str
}.

Variable messages_create : CreateArgs -> result (list str).

(** [message.content[0].text] *)
Definition first_text (blocks : list str) : result str :=
  match blocks with
  | t :: _ => Ok t
  | [] => Raise IndexError
  end.

(** The body of the [try] block of [analyze_transaction]; logging is left
    out. *)
Definition analyze_body (transaction : TransactionRequest)
    : result FraudAnalysisResponse :=
  let prompt := build_fraud_prompt transaction in
  message <- messages_create
               {| model := chars "claude-3-5-sonnet-20241022";
                  max_tokens := 1024;
                  temperature_tenths := 3;
                  content := prompt |} ;;
  response_text <- first_text message ;;
  analysis <- parse_claude_response response_text ;;
  Ok {| resp_transaction_id := transaction_id transaction;
        resp_risk_level := risk_level analysis;
        resp_confidence := confidence analysis;
        resp_reasoning := reasoning analysis;
        resp_red_flags := red_flags analysis;
        resp_recommendations := recommendations analysis |}.

Definition analyze_transaction (transaction : TransactionRequest)
    : result FraudAnalysisResponse :=
  match analyze_body transaction with
  | Ok r => Ok r
  | Raise e =>
      Raise (HTTPException 500
               (chars "Failed to analyze transaction: " ++ exn_str e))
  end.

End Service.


(** * Vocabulary of the statements *)

(** [strip_prefix_ci l s]: what follows [l] when [s] starts with [l] in any
    letter case. *)
Fixpoint strip_prefix_ci (l s : str) : option str :=
  match l with
  | [] => Some s
  | c :: l' =>
      match s with
      | d :: s' => if ieq c d then strip_prefix_ci l' s' else None
      | [] => None
      end
  end.

Definition starts_ci (l s : str) : bool :=
  match strip_prefix_ci l s with Some _ => true | None => false end.

(** The text [l] occurs in [s] in some letter case. *)
Definition occurs_ci (l s : str) : Prop :=
  exists pre m post, s = pre ++ m ++ post /\ lower m = lower l.

(** Regular expressions without group, lookahead and [$] denote a set of
    words. *)
Fixpoint plain (r : regex) : bool :=
  match r with
  | Eps | Chr _ | Star _ | Plus _ | PlusLazy _ => true
  | Cat r1 r2 | Alt r1 r2 => plain r1 && plain r2
  | Eos | Grp _ | Ahead _ => false
  end.

Inductive denotes : regex -> str -> Prop :=
| D_Eps : denotes Eps []
| D_Chr c d : ieq c d = true -> denotes (Chr c) [d]
| D_Cat r1 r2 w1 w2 :
    denotes r1 w1 -> denotes r2 w2 -> denotes (Cat r1 r2) (w1 ++ w2)
| D_AltL r1 r2 w : denotes r1 w -> denotes (Alt r1 r2) w
| D_AltR r1 r2 w : denotes r2 w -> denotes (Alt r1 r2) w
| D_Star k w : forallb (in_cls k) w = true -> denotes (Star k) w
| D_Plus k w :
    w <> [] -> forallb (in_cls k) w = true -> denotes (Plus k) w
| D_PlusLazy k w :
    w <> [] -> forallb (in_cls k) w = true -> denotes (PlusLazy k) w.

(** [r] matches some part of [s]. *)
Definition occurs (r : regex) (s : str) : Prop :=
  exists pre w post, s = pre ++ w ++ post /\ denotes r w.

(** Every word of [r] is non-empty. *)
Fixpoint nonnull (r : regex) : bool :=
  match r with
  | Chr _ | Plus _ | PlusLazy _ => true
  | Cat r1 r2 => nonnull r1 || nonnull r2
  | Alt r1 r2 => nonnull r1 && nonnull r2
  | _ => false
  end.

(** A successful match of [r] always has group 1. *)
Fixpoint sets_group (r : regex) : bool :=
  match r with
  | Grp _ => true
  | Cat r1 r2 => sets_group r1 || sets_group r2
  | Alt r1 r2 => sets_group r1 && sets_group r2
  | Ahead r1 => sets_group r1
  | _ => false
  end.



(** The loop of [sanitize_input] over a list of patterns. *)
Definition passes (ps : list regex) (text : str) : str :=
  fold_left (fun sanitized pattern => sub pattern sanitized) ps text.

Definition all_ascii : list ascii := map ascii_of_nat (seq 0 256).

(** The role words of the three role-label patterns. *)
Definition role_words : list str :=
  [ chars "system"; chars "assistant"; chars "user" ].

(** [w] occurs in [s], in some letter case, as a word of its own: neither
    preceded nor followed by a word character.  [prev] tells whether the
    character before [s] is a word character. *)
Fixpoint standalone_from (w : str) (prev : bool) (s : str) : bool :=
  (negb prev &&
   match strip_prefix_ci w s with
   | Some (c :: _) => negb (isword c)
   | Some [] => true
   | None => false
   end)
  || match s with
     | [] => false
     | c :: s' => standalone_from w (isword c) s'
     end.

Definition standalone_word (w s : str) : bool := standalone_from w false s.

(** Every word of [r] starts with a letter, a digit or an underscore. *)
Fixpoint starts_with_word_char (r : regex) : bool :=
  match r with
  | Chr c => isword c
  | Cat r1 _ => starts_with_word_char r1
  | Alt r1 r2 => starts_with_word_char r1 && starts_with_word_char r2
  | _ => false
  end.

(** The number of characters of [s] that are not whitespace. *)
Definition ink (s : str) : nat :=
  length (filter (fun c => negb (isspace c)) s).

(** ** Vocabulary for the parser *)

Fixpoint take_while (p : ascii -> bool) (s : str) : str :=
  match s with
  | c :: s' => if p c then c :: take_while p s' else []
  | [] => []
  end.

Fixpoint drop_while (p : ascii -> bool) (s : str) : str :=
  match s with
  | c :: s' => if p c then drop_while p s' else s
  | [] => []
  end.

(** The five labels of the output format. *)
Definition labels : list str :=
  [ chars "RISK_LEVEL:"; chars "CONFIDENCE:"; chars "REASONING:";
    chars "RED_FLAGS:"; chars "RECOMMENDATIONS:" ].

(** The text after the first occurrence of [label], in any letter case. *)
Definition after_label (label s : str) : option str :=
  leftmost (strip_prefix_ci label) s.

(** The text before the first occurrence of [stop], in any letter case; the
    whole text when [stop] does not occur. *)
Fixpoint until_label (stop s : str) : str :=
  match s with
  | [] => []
  | c :: s' => if starts_ci stop s then [] else c :: until_label stop s'
  end.

(** Group 1 of the leftmost match, if there is a match. *)
Definition field (r : regex) (s : str) : option str :=
  match search r s with
  | Some m => group1 m
  | None => None
  end.

(** *** Tokens (C3) *)

(** C3 as the specification words it: the first whitespace-delimited token
    after the first occurrence of the label, lower-cased. *)
Definition claimed_token (label s : str) : str :=
  match after_label label s with
  | Some r0 =>
      match take_while (fun c => negb (isspace c)) (lstrip r0) with
      | [] => chars "unknown"
      | tok => lower tok
      end
  | None => chars "unknown"
  end.

(** The run of word characters that follows [label] and optional
    whitespace at the start of [u]. *)
Definition word_after (label u : str) : option str :=
  match strip_prefix_ci label u with
  | Some r0 =>
      match take_while isword (lstrip r0) with
      | [] => None
      | w => Some w
      end
  | None => None
  end.

(** The same at the first occurrence of the label that has such a run. *)
Definition first_word_after (label s : str) : option str :=
  leftmost (word_after label) s.

Definition token_or_unknown (label s : str) : str :=
  match first_word_after label s with
  | Some w => lower w
  | None => chars "unknown"
  end.

(** *** Spans between two labels (C4, C5) *)

(** C4 and C5 as the specification words them: the text strictly between
    the first occurrence of [label] and the next occurrence of [stop] (or
    the end of the text), trimmed. *)
Definition claimed_between (label stop s : str) : option str :=
  match after_label label s with
  | Some r0 => Some (strip (until_label stop r0))
  | None => None
  end.

(** What the lazy group captures: it starts at the first character after
    [label] that is not whitespace, always takes that character, and ends
    before the next occurrence of [stop] after it. *)
Definition between_labels (label stop s : str) : option str :=
  match after_label label s with
  | Some r0 =>
      match lstrip r0 with
      | c :: t => Some (strip (c :: until_label stop t))
      | [] => Some []
      end
  | None => None
  end.

Definition text_or_empty (o : option str) : str :=
  match o with Some t => t | None => [] end.

(** The comma-separated list of C5: split, trim each segment, drop the
    empty ones. *)
Definition comma_list (t : str) : list str :=
  filter truthy (map strip (split ","%char t)).

Definition flags_of (o : option str) : list str :=
  match o with
  | Some t => if str_eqb (lower t) (chars "none") then [] else comma_list t
  | None => []
  end.

(** The characters of [t] that the lazy group takes after its first one:
    up to the first place where [stop] or [$] matches. *)
Fixpoint lazy_tail (stop t : str) : str :=
  match t with
  | [] => []
  | d :: t' =>
      if starts_ci stop t || at_eos t then [] else d :: lazy_tail stop t'
  end.

(** The shape of [risk_re] and [conf_re], and of [reason_re] and
    [flags_re]. *)
Definition token_re (label : str) : regex :=
  cat [lit label; Star Space; Grp (Plus Word)].

Definition between_re (label stop : str) : regex :=
  cat [lit label; Star Space; Grp (PlusLazy Any); Ahead (Alt (lit stop) Eos)].

(** Group 1 of the match of [r] at the start of [u]. *)
Definition group_at (r : regex) (u : str) : option str :=
  match match_at r u with
  | Some m => group1 m
  | None => None
  end.

(** The reply of the round-trip example; [nl] is the newline. *)
Definition synthetic_reply : str :=
  chars "RISK_LEVEL: high" ++ nl ::
  chars "CONFIDENCE: medium" ++ nl ::
  chars "REASONING: large amount." ++ nl ::
  chars "RED_FLAGS: unusual location, odd hour" ++ nl ::
  chars "RECOMMENDATIONS: flag for review".

(** A card field of exactly four digits, in the sense of [str.isdigit]. *)
Definition four_digits (s : str) : Prop :=
  length s = 4 /\ forallb isdigit_char s = true.

Definition raises {A} (x : result A) : Prop := exists e, x = Raise e.

(** A request of the manual tests, and a model client that always answers
    with the synthetic reply. *)
Definition low_risk_request : TransactionRequest nat :=
  {| transaction_id := chars "txn_low_001"; amount := 4732;
     merchant := chars "Starbucks"; category := chars "food";
     location := chars "San Francisco, CA";
     timestamp := chars "2024-12-08T08:15:00Z";
     card_last_four := Some (chars "5678") |}.

Definition cents_2f (_ : nat) : str := chars "47.32".

Definition canned_client (_ : CreateArgs) : result (list str) :=
  Ok [synthetic_reply].

(** ** Vocabulary for further properties *)

(** [a] is [b] with some characters deleted. *)
Inductive subseq : str -> str -> Prop :=
| subseq_nil : subseq [] []
| subseq_skip c a b : subseq a b -> subseq a (c :: b)
| subseq_keep c a b : subseq a b -> subseq (c :: a) (c :: b).

(** [s] neither starts nor ends with whitespace. *)
Definition no_edge_space (s : str) : Prop :=
  match s with
  | [] => True
  | c :: _ => isspace c = false /\ isspace (last s c) = false
  end.

(** Some injection pattern matches somewhere in [s]. *)
Definition pattern_occurs (s : str) : Prop :=
  exists p, In p injection_patterns /\ occurs p s.



(** No occurrence of the label [l] starts inside [pre] when [suf] follows
    it. *)
Definition no_label_start (l pre suf : str) : Prop :=
  forall pre1 pre2, pre = pre1 ++ pre2 -> pre2 <> [] ->
    strip_prefix_ci l (pre2 ++ suf) = None.

(** [l] and [x] differ, letter case apart, at a place both have. *)
Fixpoint blocked (l x : str) : bool :=
  match l, x with
  | c :: l', d :: x' => if ieq c d then blocked l' x' else true
  | _, _ => false
  end.

(** All the suffixes of [x], from [x] itself to the empty one. *)
Fixpoint tails (x : str) : list str :=
  x :: match x with
       | [] => []
       | _ :: x' => tails x'
       end.

(** The labels without their colon. *)
Definition label_words : list str :=
  [ chars "RISK_LEVEL"; chars "CONFIDENCE"; chars "REASONING";
    chars "RED_FLAGS"; chars "RECOMMENDATIONS" ].

(** *** Replies in the format the prompt asks for *)

(** A value for [risk_level] or [confidence]: a word. *)
Definition word_text (w : str) : Prop :=
  w <> [] /\ forallb isword w = true.

(** A value for [reasoning]: not empty, trimmed, with no colon. *)
Definition free_text (t : str) : Prop :=
  t <> [] /\ no_edge_space t /\ ~ In ":"%char t.

(** One red flag: a [free_text] with no comma that is not the word
    [none]. *)
Definition flag_text (f : str) : Prop :=
  free_text f /\ ~ In ","%char f /\ lower f <> chars "none".

(** The red flags as the prompt asks for them: comma-separated, or
    [none]. *)
Fixpoint join_flags (fl : list str) : str :=
  match fl with
  | [] => chars "none"
  | [f] => f
  | f :: fl' => f ++ chars ", " ++ join_flags fl'
  end.

(** A reply that follows the five lines of [prompt_instructions]. *)
Definition render_reply (rl cf rs : str) (fl : list str) (rc : str) : str :=
  chars "RISK_LEVEL: " ++ rl ++ nl ::
  chars "CONFIDENCE: " ++ cf ++ nl ::
  chars "REASONING: " ++ rs ++ nl ::
  chars "RED_FLAGS: " ++ join_flags fl ++ nl ::
  chars "RECOMMENDATIONS: " ++ rc.

(** A value, as a line after its label: a space, the value, a newline. *)
Definition value_line (v : str) : str := (" "%char :: v) ++ [nl].





(** The arguments [analyze_transaction] calls the model client with. *)
Definition create_args {Amount} (format_2f : Amount -> str)
    (t : TransactionRequest Amount) : CreateArgs :=
  {| model := chars "claude-3-5-sonnet-20241022"; max_tokens := 1024;
     temperature_tenths := 3; content := build_fraud_prompt format_2f t |}.

(** * Properties *)

Unset Implicit Arguments.

(** ** Characters *)

Lemma all_ascii_complete (c : ascii) : In c all_ascii.
Proof.
  unfold all_ascii. rewrite <- (ascii_nat_embedding c).
  apply in_map, in_seq. pose proof (nat_ascii_bounded c). lia.
Qed.

Lemma forall_ascii (f : ascii -> bool) :
  forallb f all_ascii = true -> forall c, f c = true.
Proof.
  intros H c. rewrite forallb_forall in H. apply H, all_ascii_complete.
Qed.

Ltac by_cases_on_ascii c :=
  revert c;
  match goal with
  | |- forall c, @?P c = true => apply (forall_ascii P); vm_compute; reflexivity
  end.

Lemma isspace_lower (c : ascii) :
  Bool.eqb (isspace (lower_char c)) (isspace c) = true.
Proof. by_cases_on_ascii c. Qed.

Lemma isword_lower (c : ascii) :
  Bool.eqb (isword (lower_char c)) (isword c) = true.
Proof. by_cases_on_ascii c. Qed.

Lemma space_not_word_b (c : ascii) :
  negb (isspace c && isword c) = true.
Proof. by_cases_on_ascii c. Qed.


Lemma space_not_word (c : ascii) : isspace c = true -> isword c = false.
Proof.
  intros H. pose proof (space_not_word_b c) as N. rewrite H in N.
  destruct (isword c); [discriminate | reflexivity].
Qed.

Lemma ieq_spec (c d : ascii) : ieq c d = true <-> lower_char c = lower_char d.
Proof. unfold ieq. apply Ascii.eqb_eq. Qed.

Lemma ieq_refl (c : ascii) : ieq c c = true.
Proof. apply ieq_spec. reflexivity. Qed.

Lemma ieq_isspace (c d : ascii) : ieq c d = true -> isspace c = isspace d.
Proof.
  intros H. apply ieq_spec in H.
  pose proof (isspace_lower c) as Hc. pose proof (isspace_lower d) as Hd.
  apply Bool.eqb_prop in Hc, Hd. congruence.
Qed.

Lemma ieq_isword (c d : ascii) : ieq c d = true -> isword c = isword d.
Proof.
  intros H. apply ieq_spec in H.
  pose proof (isword_lower c) as Hc. pose proof (isword_lower d) as Hd.
  apply Bool.eqb_prop in Hc, Hd. congruence.
Qed.


(** A literal letter, digit or underscore never matches a space. *)
Lemma word_not_ieq_space (c d : ascii) :
  isword c = true -> isspace d = true -> ieq c d = false.
Proof.
  intros Hw Hs. destruct (ieq c d) eqn:E; [|reflexivity].
  apply ieq_isword in E. apply space_not_word in Hs. congruence.
Qed.

(** ** Lists of characters *)

Lemma lower_app (a b : str) : lower (a ++ b) = lower a ++ lower b.
Proof. apply map_app. Qed.

Lemma lower_length (a : str) : length (lower a) = length a.
Proof. apply length_map. Qed.


Lemma strip_prefix_ci_spec (l s r : str) :
  strip_prefix_ci l s = Some r <->
  exists m, s = m ++ r /\ lower m = lower l.
Proof.
  revert s. induction l as [|c l IH]; intros s; simpl.
  - split.
    + intros [= ->]. exists []. auto.
    + intros (m & -> & H). destruct m; [reflexivity | discriminate].
  - destruct s as [|d s].
    + split; [discriminate|]. intros (m & H & Hm).
      destruct m; [discriminate | discriminate H].
    + destruct (ieq c d) eqn:E.
      * rewrite IH. apply ieq_spec in E. split.
        -- intros (m & -> & Hm). exists (d :: m). simpl. rewrite Hm, E. auto.
        -- intros (m & H & Hm). destruct m as [|d' m]; [discriminate|].
           simpl in H, Hm. injection H as -> ->. injection Hm as _ Hm.
           exists m. auto.
      * split; [discriminate|]. intros (m & H & Hm).
        destruct m as [|d' m]; [discriminate|].
        simpl in H, Hm. injection H as -> ->. injection Hm as Hc _.
        assert (ieq c d' = true) by (apply ieq_spec; congruence). congruence.
Qed.

Lemma strip_prefix_ci_length (l s r : str) :
  strip_prefix_ci l s = Some r -> length s = length l + length r.
Proof.
  intros H. apply strip_prefix_ci_spec in H as (m & -> & Hm).
  rewrite length_app, <- (lower_length m), Hm, lower_length. reflexivity.
Qed.

(** ** The matcher *)

Lemma orelse_none_r {R} (a : option R) : orelse a None = a.
Proof. destruct a; reflexivity. Qed.

Lemma orelse_some {R} (a b : option R) :
  b <> None -> orelse a b <> None.
Proof. destruct a; simpl; [discriminate | auto]. Qed.

Lemma run_lit {R} (l s : str) (g : option str)
    (k : str -> option str -> option R) :
  run (lit l) s g k =
  match strip_prefix_ci l s with
  | Some r => k r g
  | None => None
  end.
Proof.
  revert s. induction l as [|c l IH]; intros s; simpl; [reflexivity|].
  destruct s as [|d s]; [reflexivity|].
  destruct (ieq c d); [apply IH | reflexivity].
Qed.

Section RepeatFacts.
Variable R : Type.
Variable p : ascii -> bool.
Variable k : str -> option R.

Lemma star_sound (s : str) (x : R) :
  star p k s = Some x ->
  exists w s', s = w ++ s' /\ forallb p w = true /\ k s' = Some x.
Proof.
  induction s as [|c s IH]; simpl.
  - intros H. exists [], []. auto.
  - destruct (p c) eqn:E.
    + destruct (star p k s) as [y|] eqn:Es; simpl.
      * intros [= ->]. destruct (IH eq_refl) as (w & s' & -> & Hw & Hk).
        exists (c :: w), s'. simpl. rewrite E. auto.
      * intros H. exists [], (c :: s). auto.
    + intros H. exists [], (c :: s). auto.
Qed.

Lemma star_stop (s : str) : k s <> None -> star p k s <> None.
Proof.
  destruct s as [|c s]; simpl; [auto|].
  destruct (p c); [apply orelse_some | auto].
Qed.

Lemma star_complete (w s' : str) :
  forallb p w = true -> k s' <> None -> star p k (w ++ s') <> None.
Proof.
  induction w as [|c w IH]; simpl; intros Hw Hk.
  - apply star_stop, Hk.
  - apply andb_true_iff in Hw as [-> Hw]. specialize (IH Hw Hk).
    destruct (star p k (w ++ s')); simpl; [discriminate | congruence].
Qed.

Lemma plus_sound (s : str) (x : R) :
  plus p k s = Some x ->
  exists w s', s = w ++ s' /\ w <> [] /\ forallb p w = true /\ k s' = Some x.
Proof.
  destruct s as [|c s]; simpl; [discriminate|].
  destruct (p c) eqn:E; [|discriminate].
  intros H. apply star_sound in H as (w & s' & -> & Hw & Hk).
  exists (c :: w), s'. simpl. rewrite E. repeat split; auto. discriminate.
Qed.

Lemma plus_complete (w s' : str) :
  w <> [] -> forallb p w = true -> k s' <> None ->
  plus p k (w ++ s') <> None.
Proof.
  destruct w as [|c w]; [congruence|]. simpl. intros _ Hw Hk.
  apply andb_true_iff in Hw as [-> Hw]. apply star_complete; assumption.
Qed.

Lemma plus_lazy_sound (s : str) (x : R) :
  plus_lazy p k s = Some x ->
  exists w s', s = w ++ s' /\ w <> [] /\ forallb p w = true /\ k s' = Some x.
Proof.
  induction s as [|c s IH]; simpl; [discriminate|].
  destruct (p c) eqn:E; [|discriminate].
  destruct (k s) as [y|] eqn:Ek; simpl.
  - intros [= ->]. exists [c], s. simpl. rewrite E.
    repeat split; auto. discriminate.
  - intros H. destruct (IH H) as (w & s' & -> & _ & Hw & Hk).
    exists (c :: w), s'. simpl. rewrite E. repeat split; auto. discriminate.
Qed.

Lemma plus_lazy_complete (w s' : str) :
  w <> [] -> forallb p w = true -> k s' <> None ->
  plus_lazy p k (w ++ s') <> None.
Proof.
  induction w as [|c w IH]; [congruence|]. simpl. intros _ Hw Hk.
  apply andb_true_iff in Hw as [-> Hw].
  destruct w as [|d w].
  - simpl. destruct (k s'); simpl; [discriminate | congruence].
  - assert (Hd : d :: w <> []) by discriminate. specialize (IH Hd Hw Hk).
    destruct (k ((d :: w) ++ s')); simpl; [discriminate | assumption].
Qed.
End RepeatFacts.

(** The matcher is sound and complete for the words a plain expression
    denotes. *)
Lemma run_sound (r : regex) :
  plain r = true ->
  forall R (s : str) g (k : str -> option str -> option R) x,
    run r s g k = Some x ->
    exists w s', s = w ++ s' /\ denotes r w /\ k s' g = Some x.
Proof.
  induction r as [|c| |r1 IHr1 r2 IHr2|r1 IHr1 r2 IHr2|c|c|c|r1 IHr1|r1 IHr1];
    simpl; intros Hp R s g k x H; try discriminate.
  - exists [], s. auto using denotes.
  - destruct s as [|d s]; [discriminate|].
    destruct (ieq c d) eqn:E; [|discriminate].
    exists [d], s. auto using denotes.
  - apply andb_true_iff in Hp as [H1 H2].
    apply (IHr1 H1) in H as (w1 & s1 & -> & D1 & H).
    apply (IHr2 H2) in H as (w2 & s2 & -> & D2 & H).
    exists (w1 ++ w2), s2. rewrite <- app_assoc. auto using denotes.
  - apply andb_true_iff in Hp as [H1 H2].
    destruct (run r1 s g k) as [y|] eqn:E; simpl in H.
    + injection H as ->. apply (IHr1 H1) in E as (w & s' & -> & D & E).
      exists w, s'. auto using denotes.
    + apply (IHr2 H2) in H as (w & s' & -> & D & H).
      exists w, s'. auto using denotes.
  - apply star_sound in H as (w & s' & -> & Hw & H).
    exists w, s'. auto using denotes.
  - apply plus_sound in H as (w & s' & -> & Hn & Hw & H).
    exists w, s'. auto using denotes.
  - apply plus_lazy_sound in H as (w & s' & -> & Hn & Hw & H).
    exists w, s'. auto using denotes.
Qed.

Lemma run_complete (r : regex) (w : str) :
  denotes r w ->
  forall R (s' : str) g (k : str -> option str -> option R),
    k s' g <> None -> run r (w ++ s') g k <> None.
Proof.
  induction 1; simpl; intros R s' g kont Hk.
  - assumption.
  - rewrite H. assumption.
  - rewrite <- app_assoc. apply IHdenotes1. apply IHdenotes2. assumption.
  - specialize (IHdenotes R s' g kont Hk).
    destruct (run r1 (w ++ s') g kont); simpl; [discriminate | congruence].
  - apply orelse_some. apply IHdenotes. assumption.
  - apply star_complete; assumption.
  - apply plus_complete; assumption.
  - apply plus_lazy_complete; assumption.
Qed.



(** ** search and sub *)

Lemma leftmost_none {A} (f : str -> option A) (s : str) :
  leftmost f s = None <-> forall pre suf, s = pre ++ suf -> f suf = None.
Proof.
  induction s as [|c s IH]; simpl.
  - destruct (f []) eqn:E; split; try discriminate; auto.
    + intros H. rewrite <- E. apply (H [] []). reflexivity.
    + intros _ pre suf H. symmetry in H. apply app_eq_nil in H as [_ ->].
      assumption.
  - destruct (f (c :: s)) eqn:E; split; try discriminate.
    + intros H. rewrite <- E. apply (H [] (c :: s)). reflexivity.
    + intros H [|d pre] suf Hs.
      * simpl in Hs. subst suf. assumption.
      * simpl in Hs. injection Hs as -> ->.
        apply (proj1 IH H pre suf). reflexivity.
    + intros H. apply IH. intros pre suf ->. apply (H (c :: pre) suf).
      reflexivity.
Qed.

Lemma leftmost_some {A} (f : str -> option A) (s : str) (x : A) :
  leftmost f s = Some x ->
  exists pre suf, s = pre ++ suf /\ f suf = Some x /\
    forall pre1 pre2, pre = pre1 ++ pre2 -> pre2 <> [] -> f (pre2 ++ suf) = None.
Proof.
  induction s as [|c s IH]; simpl.
  - destruct (f []) eqn:E; [|discriminate]. intros [= ->].
    exists [], []. repeat split; auto.
    intros pre1 pre2 H. symmetry in H. apply app_eq_nil in H as [_ ->].
    congruence.
  - destruct (f (c :: s)) eqn:E.
    + intros [= ->]. exists [], (c :: s). repeat split; auto.
      intros pre1 pre2 H. symmetry in H. apply app_eq_nil in H as [_ ->].
      congruence.
    + intros H. destruct (IH H) as (pre & suf & -> & Hf & Hmin).
      exists (c :: pre), suf. repeat split; auto.
      intros [|d pre1] pre2 Hp Hn.
      * simpl in Hp. subst pre2. assumption.
      * simpl in Hp. injection Hp as -> ->. eapply Hmin; eauto.
Qed.

Lemma leftmost_ext {A} (f f' : str -> option A) (s : str) :
  (forall u, f u = f' u) -> leftmost f s = leftmost f' s.
Proof.
  intros H. induction s as [|c s IH]; simpl; rewrite H; [reflexivity|].
  rewrite IH. reflexivity.
Qed.

Lemma match_at_sound (r : regex) (s : str) (m : Match) :
  plain r = true -> match_at r s = Some m ->
  exists w, s = w ++ rest m /\ denotes r w.
Proof.
  intros Hp H. apply (run_sound r Hp) in H as (w & s' & -> & D & [= <-]).
  exists w. auto.
Qed.

Lemma search_occurs (r : regex) (s : str) :
  plain r = true -> (search r s <> None <-> occurs r s).
Proof.
  intros Hp. unfold search. split.
  - destruct (leftmost (match_at r) s) as [m|] eqn:E; [|congruence].
    intros _. apply leftmost_some in E as (pre & suf & -> & E & _).
    apply (match_at_sound _ _ _ Hp) in E as (w & -> & D).
    exists pre, w, (rest m). auto.
  - intros (pre & w & post & -> & D) E.
    rewrite leftmost_none in E. specialize (E pre (w ++ post) eq_refl).
    revert E. apply run_complete; [assumption | discriminate].
Qed.

Lemma not_occurs_search (r : regex) (s : str) :
  plain r = true -> search r s = None -> ~ occurs r s.
Proof.
  intros Hp E H. apply (search_occurs _ _ Hp) in H. congruence.
Qed.


Lemma sub_no_match (r : regex) (s : str) : search r s = None -> sub r s = s.
Proof.
  unfold sub, search. induction s as [|c s IH]; simpl; [reflexivity|].
  destruct (match_at r (c :: s)); [discriminate|].
  intros H. rewrite (IH H). reflexivity.
Qed.


(** ** String methods *)



(** ** sanitize_input *)


Lemma passes_no_match (ps : list regex) (text : str) :
  (forall p, In p ps -> search p text = None) -> passes ps text = text.
Proof.
  induction ps as [|p ps IH]; intros H; simpl; [reflexivity|].
  rewrite sub_no_match by (apply H; left; reflexivity).
  apply IH. intros q Hq. apply H. right. assumption.
Qed.


Lemma injection_patterns_plain (p : regex) :
  In p injection_patterns -> plain p = true /\ nonnull p = true.
Proof.
  intros H. repeat (destruct H as [<-|H]; [split; reflexivity|]). destruct H.
Qed.



(** Trimming deletes whitespace only; a pass that finds a match deletes a
    character that is not whitespace. *)
Lemma starts_with_word_char_spec (r : regex) (w : str) :
  starts_with_word_char r = true -> denotes r w ->
  exists c w', w = c :: w' /\ isspace c = false.
Proof.
  intros Hs D. induction D; simpl in Hs; try discriminate.
  - exists d, []. split; [reflexivity|].
    apply ieq_isword in H. rewrite Hs in H.
    destruct (isspace d) eqn:E; [|reflexivity].
    apply space_not_word in E. congruence.
  - destruct (IHD1 Hs) as (c & w' & -> & Hc). exists c, (w' ++ w2). auto.
  - apply andb_true_iff in Hs as [Hs _]. auto.
  - apply andb_true_iff in Hs as [_ Hs]. auto.
Qed.

Lemma ink_app (a b : str) : ink (a ++ b) = ink a + ink b.
Proof. unfold ink. rewrite filter_app, length_app. reflexivity. Qed.

Lemma ink_rev (s : str) : ink (rev s) = ink s.
Proof.
  induction s as [|c s IH]; [reflexivity|].
  simpl rev. rewrite ink_app, IH. change (c :: s) with ([c] ++ s).
  rewrite (ink_app [c] s). lia.
Qed.

Lemma ink_lstrip (s : str) : ink (lstrip s) = ink s.
Proof.
  induction s as [|c s IH]; [reflexivity|]. simpl.
  destruct (isspace c) eqn:E; [|reflexivity].
  rewrite IH. unfold ink. simpl. rewrite E. reflexivity.
Qed.

Lemma ink_strip (s : str) : ink (strip s) = ink s.
Proof.
  unfold strip, rstrip. rewrite ink_rev, ink_lstrip, ink_rev, ink_lstrip.
  reflexivity.
Qed.

Lemma ink_cons_le (c : ascii) (s : str) : ink s <= ink (c :: s).
Proof. unfold ink. simpl. destruct (negb (isspace c)); simpl; lia. Qed.

Lemma ink_sub_from (r : regex) (s : str) :
  forall n, ink (sub_from r n s) <= ink s.
Proof.
  induction s as [|c s IH]; intros n; cbn [sub_from]; [lia|].
  pose proof (ink_cons_le c s).
  destruct n as [|n]; [|specialize (IH n); lia].
  assert (K : ink (c :: sub_from r 0 s) <= ink (c :: s)).
  { specialize (IH 0). change (ink ([c] ++ sub_from r 0 s) <= ink ([c] ++ s)).
    rewrite !ink_app. lia. }
  destruct (match_at r (c :: s)) as [m|]; [|exact K].
  destruct (length (c :: s) - length (rest m)) as [|j]; [exact K|].
  specialize (IH j). lia.
Qed.

Lemma ink_sub_match (r : regex) (s : str) :
  plain r = true -> starts_with_word_char r = true -> search r s <> None ->
  ink (sub r s) < ink s.
Proof.
  intros Hp Hn. unfold sub, search.
  induction s as [|c s IH]; cbn [sub_from leftmost].
  - destruct (match_at r []) as [m|] eqn:E; [|congruence].
    apply (match_at_sound _ _ _ Hp) in E as (w & E & D).
    apply (starts_with_word_char_spec _ _ Hn) in D as (d & w' & -> & _).
    discriminate E.
  - destruct (match_at r (c :: s)) as [m|] eqn:E.
    + intros _. apply (match_at_sound _ _ _ Hp) in E as (w & E & D).
      apply (starts_with_word_char_spec _ _ Hn) in D as (d & w' & -> & Hd).
      assert (L : length (c :: s) = length (d :: w') + length (rest m))
        by (rewrite E, length_app; reflexivity).
      cbn [length] in L |- *.
      replace (S (length s) - length (rest m)) with (S (length w')) by lia.
      injection E as -> _.
      pose proof (ink_sub_from r s (length w')).
      unfold ink at 2. simpl. rewrite Hd. simpl. fold (ink s). lia.
    + intros H. specialize (IH H).
      change (ink ([c] ++ sub_from r 0 s) < ink ([c] ++ s)).
      rewrite !ink_app. lia.
Qed.

Lemma ink_passes (ps : list regex) (text : str) :
  ink (passes ps text) <= ink text.
Proof.
  revert text. induction ps as [|p ps IH]; intros text; simpl; [lia|].
  fold (passes ps (sub p text)). specialize (IH (sub p text)).
  pose proof (ink_sub_from p text 0). unfold sub in *. lia.
Qed.

Lemma ink_passes_match (ps : list regex) (text : str) :
  (forall p, In p ps -> plain p = true /\ starts_with_word_char p = true) ->
  (exists p, In p ps /\ occurs p text) ->
  ink (passes ps text) < ink text.
Proof.
  induction ps as [|p ps IH]; intros Hps (q & Hq & Ho); [destruct Hq|].
  destruct (Hps p (or_introl eq_refl)) as [Hp Hn]. simpl.
  fold (passes ps (sub p text)).
  destruct (search p text) as [m|] eqn:E.
  - assert (L : ink (sub p text) < ink text)
      by (apply ink_sub_match; congruence).
    pose proof (ink_passes ps (sub p text)). lia.
  - rewrite (sub_no_match _ _ E). apply IH.
    + intros p' Hp'. apply Hps. right. assumption.
    + destruct Hq as [<-|Hq].
      * exfalso. revert Ho. apply not_occurs_search; assumption.
      * exists q. auto.
Qed.

Lemma injection_patterns_letter (p : regex) :
  In p injection_patterns ->
  plain p = true /\ starts_with_word_char p = true.
Proof.
  intros H. repeat (destruct H as [<-|H]; [split; reflexivity|]). destruct H.
Qed.

Lemma sanitize_input_passes (text : str) :
  sanitize_input text = strip (passes injection_patterns text).
Proof. reflexivity. Qed.




(** C9, as the specification states it, fails: in [ecosystem:] the word
    [system] is part of a longer word, and the Sanitizer still deletes
    [system:]. *)
Lemma sanitize_input_inside_word :
  ~ (forall text,
       (forall w, In w role_words -> standalone_word w text = false) ->
       sanitize_input text = strip text).
Proof.
  intros H. specialize (H (chars "ecosystem:")).
  assert (E : sanitize_input (chars "ecosystem:") = chars "eco")
    by (vm_compute; reflexivity).
  rewrite E in H. discriminate H.
  intros w Hw. repeat (destruct Hw as [<-|Hw]; [vm_compute; reflexivity|]).
  destruct Hw.
Qed.

(** C9 (amended): the role labels are deleted wherever [system],
    [assistant] or [user], in any letter case, is followed by optional
    whitespace and a colon, inside a longer word too.  A text is returned
    unchanged apart from the trimming exactly when none of the six patterns
    matches anywhere in it. *)
Theorem sanitize_input_no_match (text : str) :
  (forall p, In p injection_patterns -> ~ occurs p text) <->
  sanitize_input text = strip text.
Proof.
  rewrite sanitize_input_passes. split.
  - intros H. f_equal. apply passes_no_match. intros p Hp.
    destruct (search p text) eqn:E; [|reflexivity].
    exfalso. apply (H p Hp). apply search_occurs.
    + apply injection_patterns_plain, Hp.
    + congruence.
  - intros E p Hp Ho.
    assert (L : ink (passes injection_patterns text) < ink text).
    { apply ink_passes_match; [exact injection_patterns_letter|].
      exists p. auto. }
    apply (f_equal ink) in E. rewrite !ink_strip in E. lia.
Qed.

Lemma sanitize_input_no_match_witness :
  sanitize_input (chars "  Gift Cards Plus ") = strip (chars "  Gift Cards Plus ").
Proof.
  apply (proj1 (sanitize_input_no_match _)). intros p Hp.
  apply not_occurs_search; [apply injection_patterns_plain, Hp|].
  repeat (destruct Hp as [<-|Hp]; [vm_compute; reflexivity|]). destruct Hp.
Defined.

(** ** Group 1 *)

Lemma run_group (r : regex) :
  forall R (s : str) g (k : str -> option str -> option R) x,
    run r s g k = Some x ->
    exists s' g', k s' g' = Some x /\ (g <> None -> g' <> None) /\
                  (sets_group r = true -> g' <> None).
Proof.
  induction r as [|c| |r1 IHr1 r2 IHr2|r1 IHr1 r2 IHr2|c|c|c|r1 IHr1|r1 IHr1];
    simpl; intros R s g k x H.
  - exists s, g. repeat split; auto; discriminate.
  - destruct s as [|d s]; [discriminate|].
    destruct (ieq c d); [|discriminate].
    exists s, g. repeat split; auto; discriminate.
  - destruct (at_eos s); [|discriminate].
    exists s, g. repeat split; auto; discriminate.
  - apply IHr1 in H as (s1 & g1 & H & K1 & S1).
    apply IHr2 in H as (s2 & g2 & H & K2 & S2).
    exists s2, g2. repeat split; auto.
    intros E. apply orb_true_iff in E as [E|E]; auto.
  - assert (H' : run r1 s g k = Some x \/ run r2 s g k = Some x).
    { destruct (run r1 s g k); simpl in H; auto. }
    destruct H' as [H'|H'].
    + apply IHr1 in H' as (s1 & g1 & H' & K1 & S1).
      exists s1, g1. repeat split; auto.
      intros E. apply andb_true_iff in E as [E _]. auto.
    + apply IHr2 in H' as (s1 & g1 & H' & K1 & S1).
      exists s1, g1. repeat split; auto.
      intros E. apply andb_true_iff in E as [_ E]. auto.
  - apply star_sound in H as (w & s' & _ & _ & H).
    exists s', g. repeat split; auto; discriminate.
  - apply plus_sound in H as (w & s' & _ & _ & _ & H).
    exists s', g. repeat split; auto; discriminate.
  - apply plus_lazy_sound in H as (w & s' & _ & _ & _ & H).
    exists s', g. repeat split; auto; discriminate.
  - apply IHr1 in H as (s1 & g1 & H & _).
    eexists s1, (Some _). repeat split; eauto; discriminate.
  - destruct (run r1 s g (fun _ g' => Some g')) as [g1|] eqn:E; [|discriminate].
    apply IHr1 in E as (s1 & g1' & [= ->] & K1 & S1).
    exists s, g1. repeat split; auto.
Qed.

Lemma search_group (r : regex) (s : str) (m : Match) :
  sets_group r = true -> search r s = Some m -> exists t, group1 m = Some t.
Proof.
  intros Hs H. apply leftmost_some in H as (pre & suf & _ & H & _).
  apply run_group in H as (s' & g' & [= <-] & _ & Hg). simpl.
  destruct g' as [t|]; [eauto|]. exfalso. apply (Hg Hs). reflexivity.
Qed.

Lemma field_group_1 (r : regex) (s : str) (m : Match) :
  sets_group r = true -> search r s = Some m ->
  exists t, field r s = Some t /\ group_1 m = Ok t.
Proof.
  intros Hs H. destruct (search_group r s m Hs H) as [t Ht].
  exists t. unfold field, group_1. rewrite H, Ht. auto.
Qed.

(** The parser as a record of its five searches: it returns on every
    text. *)
Lemma parse_fields (s : str) :
  parse_claude_response s =
  Ok {| risk_level :=
          match field risk_re s with
          | Some g => lower g
          | None => chars "unknown"
          end;
        confidence :=
          match field conf_re s with
          | Some g => lower g
          | None => chars "unknown"
          end;
        reasoning :=
          match field reason_re s with
          | Some g => strip g
          | None => []
          end;
        red_flags :=
          match field flags_re s with
          | Some g =>
              if str_eqb (lower (strip g)) (chars "none") then []
              else stripped_segments (split ","%char (strip g))
          | None => []
          end;
        recommendations :=
          match field rec_re s with
          | Some g => strip g
          | None => []
          end |}.
Proof.
  unfold parse_claude_response.
  assert (F : forall r, sets_group r = true ->
            (exists m t, search r s = Some m /\ field r s = Some t /\
                         group_1 m = Ok t) \/
            (search r s = None /\ field r s = None)).
  { intros r Hr. destruct (search r s) as [m|] eqn:E.
    - left. destruct (field_group_1 r s m Hr E) as (t & Ht & Hg). eauto.
    - right. unfold field. rewrite E. auto. }
  destruct (F risk_re eq_refl) as [(m1 & t1 & -> & -> & ->)|[-> ->]];
  destruct (F conf_re eq_refl) as [(m2 & t2 & -> & -> & ->)|[-> ->]];
  destruct (F reason_re eq_refl) as [(m3 & t3 & -> & -> & ->)|[-> ->]];
  destruct (F flags_re eq_refl) as [(m4 & t4 & -> & -> & ->)|[-> ->]];
  destruct (F rec_re eq_refl) as [(m5 & t5 & -> & -> & ->)|[-> ->]];
  cbn [bind]; try destruct (str_eqb (lower (strip t4)) (chars "none"));
  reflexivity.
Qed.

(** ** Labels *)

Lemma after_label_occurs (l s : str) :
  after_label l s <> None <-> occurs_ci l s.
Proof.
  unfold after_label. split.
  - destruct (leftmost (strip_prefix_ci l) s) as [r0|] eqn:E; [|congruence].
    intros _. apply leftmost_some in E as (pre & suf & -> & E & _).
    apply strip_prefix_ci_spec in E as (m & -> & Hm). exists pre, m, r0. auto.
  - intros (pre & m & post & -> & Hm) E. rewrite leftmost_none in E.
    specialize (E pre (m ++ post) eq_refl).
    assert (K : strip_prefix_ci l (m ++ post) = Some post)
      by (apply strip_prefix_ci_spec; eauto).
    congruence.
Qed.

Lemma not_occurs_ci (l s : str) : after_label l s = None -> ~ occurs_ci l s.
Proof. intros E H. apply after_label_occurs in H. congruence. Qed.

(** A pattern that starts with a label matches only where the label is. *)
Lemma match_at_label (l : str) (r : regex) (u : str) :
  strip_prefix_ci l u = None -> match_at (Cat (lit l) r) u = None.
Proof. intros H. unfold match_at. simpl. rewrite run_lit, H. reflexivity. Qed.

Lemma field_label_absent (l : str) (r : regex) (s : str) :
  ~ occurs_ci l s -> field (Cat (lit l) r) s = None.
Proof.
  intros H. unfold field, search.
  replace (leftmost (match_at (Cat (lit l) r)) s) with (@None Match);
    [reflexivity|].
  symmetry. apply leftmost_none. intros pre suf ->.
  apply match_at_label. destruct (strip_prefix_ci l suf) as [r0|] eqn:E; auto.
  exfalso. apply H. apply strip_prefix_ci_spec in E as (m & -> & Hm).
  exists pre, m, r0. auto.
Qed.

(** C2: the parser returns a result on every text; on a text in which none
    of the five labels occurs, in any letter case, the result is the
    all-default one. *)
Theorem parse_claude_response_total (s : str) :
  (exists a, parse_claude_response s = Ok a) /\
  ((forall l, In l labels -> ~ occurs_ci l s) ->
   parse_claude_response s = Ok default_analysis).
Proof.
  split; [rewrite parse_fields; eauto|].
  intros H. rewrite parse_fields.
  assert (H1 : field risk_re s = None)
    by (apply field_label_absent, H; simpl; tauto).
  assert (H2 : field conf_re s = None)
    by (apply field_label_absent, H; simpl; tauto).
  assert (H3 : field reason_re s = None)
    by (apply field_label_absent, H; simpl; tauto).
  assert (H4 : field flags_re s = None)
    by (apply field_label_absent, H; simpl; tauto).
  assert (H5 : field rec_re s = None)
    by (apply field_label_absent, H; simpl; tauto).
  rewrite H1, H2, H3, H4, H5. reflexivity.
Qed.

Lemma parse_claude_response_total_witness :
  parse_claude_response (chars "I cannot assess this transaction.")
  = Ok default_analysis.
Proof.
  apply parse_claude_response_total. intros l Hl. apply not_occurs_ci.
  repeat (destruct Hl as [<-|Hl]; [vm_compute; reflexivity|]). destruct Hl.
Defined.

(** ** Greedy repetition *)

Section GreedyFacts.
Variable R : Type.
Variable p : ascii -> bool.
Variable k : str -> option R.

(** When what follows cannot start with a [p] character, [p*] takes all
    of them. *)
Lemma star_skip (s : str) :
  (forall c t, p c = true -> k (c :: t) = None) ->
  star p k s = k (drop_while p s).
Proof.
  intros Hk. induction s as [|c s IH]; simpl; [reflexivity|].
  destruct (p c) eqn:E; [|reflexivity].
  rewrite IH, (Hk c s E). apply orelse_none_r.
Qed.

(** When what follows always succeeds, [p*] takes all of them. *)
Lemma star_total (s : str) :
  (forall u, k u <> None) -> star p k s = k (drop_while p s).
Proof.
  intros Hk. induction s as [|c s IH]; simpl; [reflexivity|].
  destruct (p c) eqn:E; [|reflexivity].
  rewrite IH. specialize (Hk (drop_while p s)).
  destruct (k (drop_while p s)); [reflexivity | congruence].
Qed.
End GreedyFacts.

Lemma take_drop_while (p : ascii -> bool) (s : str) :
  take_while p s ++ drop_while p s = s.
Proof.
  induction s as [|c s IH]; simpl; [reflexivity|].
  destruct (p c); simpl; [rewrite IH|]; reflexivity.
Qed.

Lemma firstn_take_while (p : ascii -> bool) (s : str) :
  firstn (length s - length (drop_while p s)) s = take_while p s.
Proof.
  rewrite <- (take_drop_while p s) at 1 3.
  rewrite length_app.
  replace (length (take_while p s) + length (drop_while p s)
           - length (drop_while p s)) with (length (take_while p s) + 0) by lia.
  rewrite firstn_app_2, firstn_O, app_nil_r. reflexivity.
Qed.

Lemma drop_while_length (p : ascii -> bool) (s : str) :
  length (drop_while p s) <= length s.
Proof.
  rewrite <- (take_drop_while p s) at 2. rewrite length_app. lia.
Qed.

Lemma lstrip_drop_while (s : str) : lstrip s = drop_while isspace s.
Proof.
  induction s as [|c s IH]; simpl; [reflexivity|].
  destruct (isspace c); auto.
Qed.

Lemma leftmost_group (f : str -> option Match) (f' : str -> option str)
    (s : str) :
  (forall u, f' u = match f u with Some m => group1 m | None => None end) ->
  (forall u m, f u = Some m -> group1 m <> None) ->
  leftmost f' s = match leftmost f s with Some m => group1 m | None => None end.
Proof.
  intros Hf Hg. induction s as [|c s IH]; simpl; rewrite Hf.
  - destruct (f []) as [m|] eqn:E; [|reflexivity].
    specialize (Hg _ _ E). destruct (group1 m); [reflexivity | congruence].
  - destruct (f (c :: s)) as [m|] eqn:E; [|exact IH].
    specialize (Hg _ _ E). destruct (group1 m); [reflexivity | congruence].
Qed.

Lemma match_at_group (r : regex) (u : str) (m : Match) :
  sets_group r = true -> match_at r u = Some m -> group1 m <> None.
Proof.
  intros Hs H. apply run_group in H as (s' & g' & [= <-] & _ & Hg).
  simpl. auto.
Qed.

Lemma field_leftmost (r : regex) (s : str) :
  sets_group r = true -> field r s = leftmost (group_at r) s.
Proof.
  intros Hs. unfold field, search. symmetry. apply leftmost_group.
  - reflexivity.
  - intros u m. apply match_at_group, Hs.
Qed.

(** ** Tokens *)

Lemma firstn_cons_take_while (p : ascii -> bool) (c : ascii) (t : str) :
  firstn (length (c :: t) - length (drop_while p t)) (c :: t)
  = c :: take_while p t.
Proof.
  pose proof (drop_while_length p t). cbn [length].
  replace (S (length t) - length (drop_while p t))
    with (S (length t - length (drop_while p t))) by lia.
  cbn [firstn]. rewrite firstn_take_while. reflexivity.
Qed.

Lemma group_at_token (l u : str) : group_at (token_re l) u = word_after l u.
Proof.
  unfold group_at, match_at, word_after, token_re. cbn [cat run].
  rewrite run_lit. destruct (strip_prefix_ci l u) as [r0|]; [|reflexivity].
  rewrite star_skip.
  2:{ intros c t Hc. cbn [plus in_cls]. rewrite (space_not_word c Hc).
      reflexivity. }
  rewrite <- lstrip_drop_while. destruct (lstrip r0) as [|c t]; [reflexivity|].
  cbn [plus in_cls take_while]. destruct (isword c) eqn:E; [|reflexivity].
  rewrite star_total by discriminate.
  cbn [group1]. rewrite firstn_cons_take_while. reflexivity.
Qed.

Lemma field_token (l s : str) : field (token_re l) s = first_word_after l s.
Proof.
  rewrite field_leftmost by (simpl; apply orb_true_r).
  apply leftmost_ext. apply group_at_token.
Qed.

Lemma leftmost_skip {A} (f : str -> option A) (pre suf : str) :
  (forall pre1 pre2, pre = pre1 ++ pre2 -> pre2 <> [] ->
     f (pre2 ++ suf) = None) ->
  leftmost f (pre ++ suf) = leftmost f suf.
Proof.
  induction pre as [|c pre IH]; intros H; [reflexivity|].
  assert (E : f ((c :: pre) ++ suf) = None)
    by (apply (H [] (c :: pre)); [reflexivity | discriminate]).
  simpl in *. rewrite E.
  apply IH. intros pre1 pre2 -> Hn. apply (H (c :: pre1) pre2); auto.
Qed.

Lemma leftmost_here {A} (f : str -> option A) (s : str) (x : A) :
  f s = Some x -> leftmost f s = Some x.
Proof. intros H. destruct s; simpl; rewrite H; reflexivity. Qed.

Lemma take_while_word (t : str) :
  forallb isword (take_while (fun c => negb (isspace c)) t) = true ->
  take_while isword t = take_while (fun c => negb (isspace c)) t.
Proof.
  induction t as [|c t IH]; simpl; [reflexivity|].
  destruct (isspace c) eqn:E; simpl.
  - rewrite (space_not_word c E). reflexivity.
  - intros H. apply andb_true_iff in H as [-> H]. rewrite IH; auto.
Qed.

(** Where the first whitespace-delimited token after the first occurrence
    of the label is made of word characters, it is the token the pattern
    captures. *)
Lemma first_word_after_claimed (l s r0 : str) :
  after_label l s = Some r0 ->
  take_while (fun c => negb (isspace c)) (lstrip r0) <> [] ->
  forallb isword (take_while (fun c => negb (isspace c)) (lstrip r0)) = true ->
  token_or_unknown l s = claimed_token l s.
Proof.
  intros Ha Hn Hw. unfold token_or_unknown, claimed_token, first_word_after.
  rewrite Ha. apply leftmost_some in Ha as (pre & suf & -> & Hs & Hmin).
  rewrite leftmost_skip.
  2:{ intros pre1 pre2 E1 E2. unfold word_after.
      rewrite (Hmin pre1 pre2 E1 E2). reflexivity. }
  assert (K : word_after l suf
              = Some (take_while (fun c => negb (isspace c)) (lstrip r0))).
  { unfold word_after. rewrite Hs, (take_while_word _ Hw).
    destruct (take_while (fun c => negb (isspace c)) (lstrip r0));
      [congruence | reflexivity]. }
  rewrite (leftmost_here _ _ _ K).
  destruct (take_while (fun c => negb (isspace c)) (lstrip r0));
    [congruence | reflexivity].
Qed.

(** C3, as the specification states it, fails: the pattern wants word
    characters right after the label and the whitespace, and the search goes
    on to a later occurrence of the label when the first has none. *)
Lemma risk_level_not_first_token :
  ~ (forall s a, parse_claude_response s = Ok a ->
       risk_level a = claimed_token (chars "RISK_LEVEL:") s /\
       confidence a = claimed_token (chars "CONFIDENCE:") s).
Proof.
  intros H.
  destruct (H (chars "RISK_LEVEL: [n/a] risk_level: low") _ eq_refl) as [E _].
  vm_compute in E. discriminate E.
Qed.

(** C3 (amended): [risk_level] is the lower-cased run of word characters
    (letters, digits, underscore) that follows, after optional whitespace,
    the first occurrence of [RISK_LEVEL:] that has such a run after it, with
    no coercion to an enumeration; it is [unknown] when no occurrence has
    one.  [confidence] is the same with [CONFIDENCE:].  Where the first
    whitespace-delimited token after the first occurrence of the label is
    made of word characters only, this is that token. *)
Theorem risk_level_and_confidence_tokens (s : str) :
  exists a, parse_claude_response s = Ok a /\
    risk_level a = token_or_unknown (chars "RISK_LEVEL:") s /\
    confidence a = token_or_unknown (chars "CONFIDENCE:") s /\
    (forall l r0, after_label l s = Some r0 ->
       take_while (fun c => negb (isspace c)) (lstrip r0) <> [] ->
       forallb isword (take_while (fun c => negb (isspace c)) (lstrip r0))
         = true ->
       token_or_unknown l s = claimed_token l s).
Proof.
  eexists. split; [apply parse_fields|]. cbn [risk_level confidence].
  change risk_re with (token_re (chars "RISK_LEVEL:")).
  change conf_re with (token_re (chars "CONFIDENCE:")).
  rewrite !field_token. repeat split.
  intros l r0. apply first_word_after_claimed.
Qed.

(** ** Trimming *)

Lemma take_while_all (p : ascii -> bool) (s : str) :
  forallb p (take_while p s) = true.
Proof.
  induction s as [|c s IH]; simpl; [reflexivity|].
  destruct (p c) eqn:E; simpl; [rewrite E, IH|]; reflexivity.
Qed.

Lemma lstrip_spaces (ws x : str) :
  forallb isspace ws = true -> lstrip (ws ++ x) = lstrip x.
Proof.
  induction ws as [|c ws IH]; simpl; [reflexivity|].
  intros H. apply andb_true_iff in H as [-> H]. auto.
Qed.

Lemma lstrip_split (s : str) :
  exists ws, forallb isspace ws = true /\ s = ws ++ lstrip s.
Proof.
  exists (take_while isspace s). split; [apply take_while_all|].
  rewrite lstrip_drop_while, take_drop_while. reflexivity.
Qed.

Lemma lstrip_nil (s : str) : lstrip s = [] <-> forallb isspace s = true.
Proof.
  induction s as [|c s IH]; simpl; [tauto|].
  destruct (isspace c); simpl; [exact IH|]. split; discriminate.
Qed.

Lemma lstrip_app_keep (x y : str) :
  lstrip x <> [] -> lstrip (x ++ y) = lstrip x ++ y.
Proof.
  induction x as [|c x IH]; simpl; [congruence|].
  destruct (isspace c); auto.
Qed.

Lemma rstrip_space (x : str) (w : ascii) :
  isspace w = true -> rstrip (x ++ [w]) = rstrip x.
Proof.
  intros H. unfold rstrip. rewrite rev_app_distr. simpl. rewrite H.
  reflexivity.
Qed.

Lemma strip_space_r (x : str) (w : ascii) :
  isspace w = true -> strip (x ++ [w]) = strip x.
Proof.
  intros H. unfold strip. destruct (lstrip x) as [|c t] eqn:E.
  - apply lstrip_nil in E. rewrite lstrip_spaces by assumption.
    simpl. rewrite H. reflexivity.
  - rewrite lstrip_app_keep by congruence. rewrite E.
    apply rstrip_space, H.
Qed.

Lemma strip_spaces_l (ws x : str) :
  forallb isspace ws = true -> strip (ws ++ x) = strip x.
Proof. intros H. unfold strip. rewrite lstrip_spaces; auto. Qed.

Lemma strip_spaces (ws : str) : forallb isspace ws = true -> strip ws = [].
Proof.
  intros H. unfold strip. apply lstrip_nil in H. rewrite H. reflexivity.
Qed.

Lemma last_space (ws : str) (d : ascii) :
  ws <> [] -> forallb isspace ws = true -> isspace (last ws d) = true.
Proof.
  induction ws as [|c ws IH]; [congruence|]. intros _ H.
  apply andb_true_iff in H as [Hc H].
  destruct ws as [|e ws]; [exact Hc|]. apply IH; [discriminate | exact H].
Qed.

(** ** The lazy group and the lookahead *)

Lemma run_ahead_stop {R} (stop s : str) (g : option str)
    (k : str -> option str -> option R) :
  run (Ahead (Alt (lit stop) Eos)) s g k =
  if starts_ci stop s || at_eos s then k s g else None.
Proof.
  simpl. rewrite run_lit. unfold starts_ci.
  destruct (strip_prefix_ci stop s); simpl; [reflexivity|].
  destruct (at_eos s); reflexivity.
Qed.

Lemma plus_lazy_cons {R} (p : ascii -> bool) (k : str -> option R)
    (c : ascii) (s : str) :
  plus_lazy p k (c :: s) =
  if p c then orelse (k s) (plus_lazy p k s) else None.
Proof. reflexivity. Qed.

Lemma plus_lazy_ext {R} (p : ascii -> bool) (k k' : str -> option R)
    (s : str) :
  (forall u, k u = k' u) -> plus_lazy p k s = plus_lazy p k' s.
Proof.
  intros H. induction s as [|c s IH]; simpl; [reflexivity|].
  rewrite H, IH. reflexivity.
Qed.

Lemma plus_lazy_stop {R} (F : str -> R) (stop : str) (c : ascii) (t : str) :
  plus_lazy (fun _ => true)
    (fun s' => if starts_ci stop s' || at_eos s' then Some (F s') else None)
    (c :: t)
  = Some (F (skipn (length (lazy_tail stop t)) t)).
Proof.
  revert c. induction t as [|d t IH]; intros c.
  - cbn [plus_lazy lazy_tail at_eos]. rewrite orb_true_r. reflexivity.
  - rewrite plus_lazy_cons. cbn [lazy_tail].
    destruct (starts_ci stop (d :: t) || at_eos (d :: t)); [reflexivity|].
    cbn [orelse length skipn]. apply IH.
Qed.

Lemma lazy_tail_firstn (stop : str) (c : ascii) (t : str) :
  firstn (length (c :: t) - length (skipn (length (lazy_tail stop t)) t))
         (c :: t)
  = c :: lazy_tail stop t.
Proof.
  assert (P : forall t, firstn (length (lazy_tail stop t)) t = lazy_tail stop t).
  { clear. induction t as [|d t IH]; [reflexivity|]. cbn [lazy_tail].
    destruct (starts_ci stop (d :: t) || at_eos (d :: t)); [reflexivity|].
    cbn [length firstn]. rewrite IH. reflexivity. }
  assert (L : length (lazy_tail stop t) <= length t).
  { rewrite <- (P t). rewrite length_firstn. lia. }
  rewrite length_skipn. cbn [length].
  replace (S (length t) - (length t - length (lazy_tail stop t)))
    with (S (length (lazy_tail stop t))) by lia.
  cbn [firstn]. rewrite P. reflexivity.
Qed.

Section StarBacktrack.
Variable R : Type.
Variable p : ascii -> bool.
Variable k : str -> option R.
Hypothesis k_nil : k [] = None.
Hypothesis k_cons : forall c t, k (c :: t) <> None.

(** When what follows needs one character and then always succeeds, [p*]
    takes all the [p] characters unless they reach the end of the text;
    there it gives the last one back. *)
Lemma star_give_back (d : ascii) (s : str) :
  star p k s =
  match drop_while p s with
  | c :: t => k (c :: t)
  | [] => match s with [] => None | _ => k [last s d] end
  end.
Proof.
  induction s as [|c s IH]; [exact k_nil|].
  cbn [star drop_while]. destruct (p c) eqn:E; [|reflexivity].
  rewrite IH. destruct (drop_while p s) as [|e t].
  - destruct s as [|e s]; [reflexivity|].
    pose proof (k_cons (last (e :: s) d) []) as N.
    change (last (c :: e :: s) d) with (last (e :: s) d).
    destruct (k [last (e :: s) d]); [reflexivity | congruence].
  - pose proof (k_cons e t) as N.
    destruct (k (e :: t)); [reflexivity | congruence].
Qed.
End StarBacktrack.

(** Group 1 of [between_re] at the start of [u]. *)
Lemma group_at_between (l stop u : str) :
  group_at (between_re l stop) u =
  match strip_prefix_ci l u with
  | Some r0 =>
      match lstrip r0 with
      | c :: t => Some (c :: lazy_tail stop t)
      | [] => match r0 with [] => None | _ => Some [last r0 " "%char] end
      end
  | None => None
  end.
Proof.
  unfold group_at, match_at, between_re. cbn [cat].
  cbn [run]. rewrite run_lit.
  destruct (strip_prefix_ci l u) as [r0|]; [|reflexivity].
  set (K := fun s' : str =>
         plus_lazy (in_cls Any)
           (fun s'' => run (Ahead (Alt (lit stop) Eos)) s''
              (Some (firstn (length s' - length s'') s'))
              (fun s3 g => Some {| rest := s3; group1 := g |})) s').
  assert (HK : forall c t, K (c :: t) =
            Some {| rest := skipn (length (lazy_tail stop t)) t;
                    group1 := Some (c :: lazy_tail stop t) |}).
  { intros c t. unfold K.
    rewrite <- (lazy_tail_firstn stop c t).
    rewrite <- (plus_lazy_stop
                  (fun s3 => {| rest := s3;
                                group1 := Some (firstn (length (c :: t)
                                                        - length s3) (c :: t)) |})
                  stop c t).
    apply plus_lazy_ext. intros v. rewrite run_ahead_stop. reflexivity. }
  change (match star (in_cls Space) K r0 with
          | Some m => group1 m
          | None => None
          end = match lstrip r0 with
                | c :: t => Some (c :: lazy_tail stop t)
                | [] => match r0 with
                        | [] => None
                        | _ => Some [last r0 " "%char]
                        end
                end).
  rewrite (star_give_back _ (in_cls Space) K eq_refl) with (d := " "%char).
  2:{ intros c t. rewrite HK. discriminate. }
  rewrite lstrip_drop_while. change (in_cls Space) with isspace.
  destruct (drop_while isspace r0) as [|c t].
  - destruct r0 as [|e r0]; [reflexivity|]. rewrite HK. reflexivity.
  - rewrite HK. reflexivity.
Qed.

(** ** Spans between two labels *)

Lemma strip_prefix_ci_short (l u : str) :
  length u < length l -> strip_prefix_ci l u = None.
Proof.
  intros H. destruct (strip_prefix_ci l u) as [r0|] eqn:E; [|reflexivity].
  apply strip_prefix_ci_length in E. lia.
Qed.

Lemma leftmost_short {A} (f : str -> option A) (n : nat) (s : str) :
  (forall u, length u < n -> f u = None) ->
  length s < n -> leftmost f s = None.
Proof.
  intros Hf Hs. apply leftmost_none. intros pre suf ->. apply Hf.
  rewrite length_app in Hs. lia.
Qed.

Lemma at_eos_cons (d : ascii) (t : str) :
  at_eos (d :: t) = true -> d = nl /\ t = [].
Proof.
  destruct t; simpl; [|discriminate]. intros H. apply Ascii.eqb_eq in H. auto.
Qed.

Section Between.
Variables l stop : str.

(** The lazy group ends where the next [stop] starts, or at the end of
    the text less a final newline. *)
Lemma lazy_until (t : str) :
  lazy_tail stop t = until_label stop t \/
  until_label stop t = lazy_tail stop t ++ [nl].
Proof.
  induction t as [|d t IH]; [left; reflexivity|].
  cbn [lazy_tail until_label].
  destruct (starts_ci stop (d :: t)) eqn:E; [left; reflexivity|].
  cbn [orb]. destruct (at_eos (d :: t)) eqn:Ee.
  - apply at_eos_cons in Ee as [-> ->]. right. reflexivity.
  - destruct IH as [->| ->]; [left | right]; reflexivity.
Qed.

Lemma strip_lazy_until (c : ascii) (t : str) :
  strip (c :: lazy_tail stop t) = strip (c :: until_label stop t).
Proof.
  destruct (lazy_until t) as [-> | ->]; [reflexivity|].
  change (c :: lazy_tail stop t ++ [nl])
    with ((c :: lazy_tail stop t) ++ [nl]).
  rewrite strip_space_r; reflexivity.
Qed.

(** The reasoning and red-flags patterns against [between_labels]: the
    parser finds the trimmed span, or finds nothing where the span is
    empty because the label ends the text. *)
Lemma field_between (s : str) :
  option_map strip (field (between_re l stop) s) = between_labels l stop s \/
  (field (between_re l stop) s = None /\ between_labels l stop s = Some []).
Proof.
  rewrite field_leftmost by (simpl; rewrite !orb_true_r; reflexivity).
  unfold between_labels.
  destruct (after_label l s) as [r0|] eqn:Ea.
  - apply leftmost_some in Ea as (pre & suf & -> & Hs & Hmin).
    rewrite leftmost_skip.
    2:{ intros pre1 pre2 E1 E2. rewrite group_at_between.
        rewrite (Hmin pre1 pre2 E1 E2). reflexivity. }
    pose proof (group_at_between l stop suf) as G. rewrite Hs in G.
    destruct (lstrip r0) as [|c t] eqn:El.
    + destruct r0 as [|e r0].
      * right. split; [|reflexivity].
        apply strip_prefix_ci_length in Hs. simpl in Hs.
        destruct suf as [|c suf]; simpl; rewrite G; [reflexivity|].
        apply leftmost_short with (n := length l).
        -- intros u Hu. rewrite group_at_between.
           rewrite strip_prefix_ci_short; auto.
        -- simpl in Hs. lia.
      * left. rewrite (leftmost_here _ _ _ G). cbn [option_map].
        f_equal. apply strip_spaces. cbn [forallb]. rewrite andb_true_r.
        apply last_space; [discriminate|]. apply lstrip_nil, El.
    + left. rewrite (leftmost_here _ _ _ G). cbn [option_map].
      f_equal. apply strip_lazy_until.
  - left. replace (leftmost (group_at (between_re l stop)) s)
      with (@None str); [reflexivity|].
    symmetry. apply leftmost_none. intros pre suf ->.
    unfold after_label in Ea. rewrite leftmost_none in Ea.
    rewrite group_at_between, (Ea pre suf eq_refl). reflexivity.
Qed.

Lemma text_between (s : str) :
  match field (between_re l stop) s with
  | Some g => strip g
  | None => []
  end = text_or_empty (between_labels l stop s).
Proof.
  destruct (field_between s) as [E|[E1 E2]].
  - rewrite <- E. destruct (field (between_re l stop) s); reflexivity.
  - rewrite E1, E2. reflexivity.
Qed.

(** The span as the specification words it is the same unless [stop]
    comes right after [l] and the whitespace. *)
Hypothesis stop_not_space :
  match stop with c0 :: _ => isspace c0 = false | [] => False end.

Lemma starts_ci_space (w : ascii) (t : str) :
  isspace w = true -> starts_ci stop (w :: t) = false.
Proof.
  intros Hw. unfold starts_ci. destruct stop as [|c0 rest]; [contradiction|].
  simpl. destruct (ieq c0 w) eqn:E; [|reflexivity].
  apply ieq_isspace in E. congruence.
Qed.

Lemma until_label_spaces (ws x : str) :
  forallb isspace ws = true ->
  until_label stop (ws ++ x) = ws ++ until_label stop x.
Proof.
  induction ws as [|w ws IH]; [reflexivity|]. intros H.
  apply andb_true_iff in H as [Hw H]. cbn [app until_label].
  rewrite (starts_ci_space w (ws ++ x) Hw), IH by assumption. reflexivity.
Qed.

Lemma between_labels_claimed (s : str) :
  (forall r0, after_label l s = Some r0 ->
     starts_ci stop (lstrip r0) = false) ->
  between_labels l stop s = claimed_between l stop s.
Proof.
  intros H. unfold between_labels, claimed_between.
  destruct (after_label l s) as [r0|]; [|reflexivity].
  specialize (H r0 eq_refl). f_equal.
  destruct (lstrip_split r0) as (ws & Hws & E). rewrite E at 2.
  rewrite until_label_spaces, strip_spaces_l by assumption.
  destruct (lstrip r0) as [|c t]; [reflexivity|].
  cbn [until_label]. rewrite H. reflexivity.
Qed.
End Between.

Lemma stripped_segments_filter (segs : list str) :
  stripped_segments segs = filter truthy (map strip segs).
Proof.
  unfold stripped_segments. induction segs as [|f segs IH]; [reflexivity|].
  simpl. destruct (truthy (strip f)); simpl; rewrite IH; reflexivity.
Qed.

Lemma flags_between (l stop s : str) :
  match field (between_re l stop) s with
  | Some g =>
      if str_eqb (lower (strip g)) (chars "none") then []
      else stripped_segments (split ","%char (strip g))
  | None => []
  end = flags_of (between_labels l stop s).
Proof.
  destruct (field_between l stop s) as [E|[E1 E2]].
  - rewrite <- E. destruct (field (between_re l stop) s); [|reflexivity].
    simpl. rewrite stripped_segments_filter. reflexivity.
  - rewrite E1, E2. reflexivity.
Qed.

(** ** reasoning (C4) *)

(** C4, as the specification states it, fails: the group [(.+?)] takes at
    least one character, so a [RED_FLAGS:] label that comes right after
    [REASONING:] and the whitespace is inside the capture and does not end
    it. *)
Lemma reasoning_not_between :
  ~ (forall s a, parse_claude_response s = Ok a ->
       reasoning a
       = text_or_empty
           (claimed_between (chars "REASONING:") (chars "RED_FLAGS:") s)).
Proof.
  intros H.
  specialize (H (chars "REASONING: RED_FLAGS: none") _ eq_refl).
  vm_compute in H. discriminate H.
Qed.

(** C4 (amended): [reasoning] is the trimmed text that starts at the first
    character after the first [REASONING:] label that is not whitespace and
    ends before the next [RED_FLAGS:] label that starts after that
    character, or at the end of the text; it is empty when the label is
    absent or only whitespace follows it.  Unless [RED_FLAGS:] comes right
    after [REASONING:] and the whitespace, this is the text strictly between
    the two labels, trimmed. *)
Theorem reasoning_between_labels (s : str) :
  exists a, parse_claude_response s = Ok a /\
    reasoning a
    = text_or_empty
        (between_labels (chars "REASONING:") (chars "RED_FLAGS:") s) /\
    ((forall r0, after_label (chars "REASONING:") s = Some r0 ->
        starts_ci (chars "RED_FLAGS:") (lstrip r0) = false) ->
     reasoning a
     = text_or_empty
         (claimed_between (chars "REASONING:") (chars "RED_FLAGS:") s)) /\
    (~ occurs_ci (chars "REASONING:") s -> reasoning a = []).
Proof.
  eexists. split; [apply parse_fields|]. cbn [reasoning].
  change reason_re
    with (between_re (chars "REASONING:") (chars "RED_FLAGS:")).
  rewrite text_between. split; [reflexivity|]. split.
  - intros H. rewrite between_labels_claimed; [reflexivity | reflexivity | exact H].
  - intros H. unfold between_labels.
    destruct (after_label (chars "REASONING:") s) eqn:E; [|reflexivity].
    exfalso. apply H, after_label_occurs. congruence.
Qed.

(** ** red_flags (C5) *)

(** C5, as the specification states it, fails for the same reason as C4: a
    [RECOMMENDATIONS:] label right after [RED_FLAGS:] and the whitespace is
    taken into the list. *)
Lemma red_flags_not_between :
  ~ (forall s a, parse_claude_response s = Ok a ->
       red_flags a
       = flags_of
           (claimed_between (chars "RED_FLAGS:") (chars "RECOMMENDATIONS:") s)).
Proof.
  intros H.
  specialize (H (chars "RED_FLAGS: RECOMMENDATIONS: approve, no action")
                _ eq_refl).
  vm_compute in H. discriminate H.
Qed.

(** C5 (amended): [red_flags] is computed from the trimmed text that starts
    at the first character after the first [RED_FLAGS:] label that is not
    whitespace and ends before the next [RECOMMENDATIONS:] label that starts
    after that character, or at the end of the text: the empty list when
    that text is [none] in any letter case or the label is absent, else its
    comma-separated segments, each trimmed, the empty ones dropped, in
    order.  Unless [RECOMMENDATIONS:] comes right after [RED_FLAGS:] and the
    whitespace, that text is the text strictly between the two labels.  The
    synthetic reply parses as the specification says, and [RED_FLAGS: None]
    gives the empty list. *)
Theorem red_flags_between_labels :
  (forall s, exists a, parse_claude_response s = Ok a /\
     red_flags a
     = flags_of
         (between_labels (chars "RED_FLAGS:") (chars "RECOMMENDATIONS:") s) /\
     ((forall r0, after_label (chars "RED_FLAGS:") s = Some r0 ->
         starts_ci (chars "RECOMMENDATIONS:") (lstrip r0) = false) ->
      red_flags a
      = flags_of
          (claimed_between (chars "RED_FLAGS:") (chars "RECOMMENDATIONS:") s)) /\
     (~ occurs_ci (chars "RED_FLAGS:") s -> red_flags a = [])) /\
  parse_claude_response synthetic_reply
  = Ok {| risk_level := chars "high";
          confidence := chars "medium";
          reasoning := chars "large amount.";
          red_flags := [chars "unusual location"; chars "odd hour"];
          recommendations := chars "flag for review" |} /\
  parse_claude_response (chars "RED_FLAGS: None")
  = Ok default_analysis.
Proof.
  split; [|split; vm_compute; reflexivity].
  intros s. eexists. split; [apply parse_fields|]. cbn [red_flags].
  change flags_re
    with (between_re (chars "RED_FLAGS:") (chars "RECOMMENDATIONS:")).
  rewrite flags_between. split; [reflexivity|]. split.
  - intros H. rewrite between_labels_claimed; [reflexivity | reflexivity | exact H].
  - intros H. unfold between_labels.
    destruct (after_label (chars "RED_FLAGS:") s) eqn:E; [|reflexivity].
    exfalso. apply H, after_label_occurs. congruence.
Qed.

(** ** validate_card_last_four (C6, C10) *)

Lemma isdigit_forallb (s : str) :
  s <> [] -> isdigit s = forallb isdigit_char s.
Proof. destruct s; [congruence | reflexivity]. Qed.

Lemma validate_card_raises (s : str) :
  raises (validate_card_last_four (Some s)) <-> s <> [] /\ ~ four_digits s.
Proof.
  unfold raises, validate_card_last_four, four_digits, truthy_opt.
  destruct s as [|c s].
  - simpl. split; [intros [e H]; discriminate | intros [H _]; congruence].
  - cbn [truthy andb]. rewrite isdigit_forallb by discriminate.
    destruct (length (c :: s) =? 4) eqn:L; cbn [negb].
    + apply Nat.eqb_eq in L.
      destruct (forallb isdigit_char (c :: s)); cbn [negb].
      * split; [intros [e H]; discriminate | intros [_ H]; exfalso; auto].
      * split; [|eauto]. intros _. split; [discriminate|].
        intros [_ H]. discriminate.
    + apply Nat.eqb_neq in L. split; [|eauto].
      intros _. split; [discriminate | tauto].
Qed.

(** C6, as the specification states it, fails: the validator lets the empty
    string through, which is present and is not four digits. *)
Lemma validate_card_accepts_empty :
  ~ (forall s, raises (validate_card_last_four (Some s)) <-> ~ four_digits s).
Proof.
  intros H. destruct (proj2 (H [])) as [e He].
  - intros [L _]. discriminate L.
  - discriminate He.
Qed.

(** C6 (amended): for a card field that is present, the validator raises if
    and only if the field is not empty and is not exactly four digits
    ([str.isdigit]); so a card field that is accepted is empty or has exactly
    four digits.  [12345678], [56] and [56ab] are rejected and [5678] is
    accepted. *)
Theorem validate_card_last_four_spec :
  (forall s, raises (validate_card_last_four (Some s)) <->
             s <> [] /\ ~ four_digits s) /\
  (forall s v, validate_card_last_four (Some s) = Ok v ->
               v = Some s /\ (s = [] \/ four_digits s)) /\
  validate_card_last_four (Some (chars "12345678"))
    = Raise (ValueError (chars "Only last 4 digits of card allowed")) /\
  validate_card_last_four (Some (chars "56"))
    = Raise (ValueError (chars "Only last 4 digits of card allowed")) /\
  validate_card_last_four (Some (chars "56ab"))
    = Raise (ValueError (chars "Card digits must be numeric")) /\
  validate_card_last_four (Some (chars "5678")) = Ok (Some (chars "5678")).
Proof.
  split; [exact validate_card_raises|].
  split; [|repeat split; reflexivity].
  intros s v H.
  assert (E : v = Some s).
  { unfold validate_card_last_four in H.
    repeat match type of H with
           | (if ?b then _ else _) = _ => destruct b; try discriminate H
           end.
    congruence. }
  split; [exact E|].
  destruct s as [|c s]; [left; reflexivity | right].
  pose proof (validate_card_raises (c :: s)) as [_ K].
  unfold four_digits.
  destruct (Nat.eq_dec (length (c :: s)) 4) as [L|L];
    destruct (forallb isdigit_char (c :: s)) eqn:D; auto;
    destruct K as [e He];
    try (split; [discriminate | intros [? ?]; congruence]);
    rewrite H in He; discriminate He.
Qed.

(** ** build_fraud_prompt (C7, C10) *)

Lemma join_lines_app (xs ys : list str) :
  xs <> [] -> ys <> [] ->
  join_lines (xs ++ ys) = join_lines xs ++ nl :: join_lines ys.
Proof.
  intros Hx Hy. induction xs as [|x xs IH]; [congruence|].
  destruct xs as [|x' xs].
  - destruct ys; [congruence | reflexivity].
  - change (join_lines ((x :: x' :: xs) ++ ys))
      with (x ++ nl :: join_lines ((x' :: xs) ++ ys)).
    rewrite IH by discriminate.
    change (join_lines (x :: x' :: xs)) with (x ++ nl :: join_lines (x' :: xs)).
    rewrite <- app_assoc. reflexivity.
Qed.

Lemma build_fraud_prompt_split {Amount} (format_2f : Amount -> str)
    (t : TransactionRequest Amount) :
  build_fraud_prompt format_2f t
  = join_lines (prompt_details format_2f t) ++ nl ::
    join_lines prompt_instructions.
Proof. apply join_lines_app; discriminate. Qed.

(** C7: the prompt of every transaction record, and so of every record
    whose merchant, category and location hold no injection phrase, contains
    the five labels verbatim, each at the start of a line, in the order
    RISK_LEVEL, CONFIDENCE, REASONING, RED_FLAGS, RECOMMENDATIONS; they are
    in the fixed instructions that follow the transaction details. *)
Theorem build_fraud_prompt_labels {Amount} (format_2f : Amount -> str)
    (t : TransactionRequest Amount) :
  exists a b c d e f,
    build_fraud_prompt format_2f t
    = a ++ nl :: chars "RISK_LEVEL:" ++ b
        ++ nl :: chars "CONFIDENCE:" ++ c
        ++ nl :: chars "REASONING:" ++ d
        ++ nl :: chars "RED_FLAGS:" ++ e
        ++ nl :: chars "RECOMMENDATIONS:" ++ f /\
    exists a', a = join_lines (prompt_details format_2f t) ++ nl :: a'.
Proof.
  exists (join_lines (prompt_details format_2f t) ++ nl ::
          join_lines (firstn 9 prompt_instructions) ++ [nl]),
    (chars " [low/medium/high]"), (chars " [low/medium/high]"),
    (chars " [2-3 sentences explaining your assessment]"),
    (chars " [comma-separated list of concerns, or "
       ++ dquote :: chars "none" ++ dquote :: chars "]"),
    (chars " [1-2 sentence action recommendation]" ++ nl :: nl ::
     chars "Be specific and practical. Focus on concrete indicators.").
  split; [|eexists; reflexivity].
  rewrite build_fraud_prompt_split, <- app_assoc. reflexivity.
Qed.

(** C10: the empty string is accepted by the validator, and the prompt of a
    record whose card field is the empty string is the prompt of the same
    record without a card field; its card line is [- Card: ****XXXX]. *)
Theorem empty_card_is_masked {Amount} (format_2f : Amount -> str)
    (tid : str) (amt : Amount) (m c l ts : str) :
  let with_empty :=
    {| transaction_id := tid; amount := amt; merchant := m; category := c;
       location := l; timestamp := ts; card_last_four := Some [] |} in
  let without :=
    {| transaction_id := tid; amount := amt; merchant := m; category := c;
       location := l; timestamp := ts; card_last_four := None |} in
  validate_card_last_four (Some []) = Ok (Some []) /\
  build_fraud_prompt format_2f with_empty
    = build_fraud_prompt format_2f without /\
  exists before,
    build_fraud_prompt format_2f with_empty
    = before ++ nl :: chars "- Card: ****XXXX" ++ nl ::
      join_lines prompt_instructions.
Proof.
  intros with_empty without. split; [reflexivity|]. split; [reflexivity|].
  exists (join_lines (firstn 8 (prompt_details format_2f with_empty))).
  rewrite build_fraud_prompt_split.
  change (prompt_details format_2f with_empty)
    with (firstn 8 (prompt_details format_2f with_empty)
          ++ [chars "- Card: ****XXXX"]).
  rewrite join_lines_app by discriminate.
  rewrite <- app_assoc. reflexivity.
Qed.

(** ** analyze_transaction (C8) *)

(** C8: when the model call returns a reply, the result is assembled from
    the parse of the reply and the [transaction_id] of the input record; so
    whatever the reply is, a result carries the identifier of the record. *)
Theorem analyze_transaction_echoes_id {Amount} (format_2f : Amount -> str)
    (messages_create : CreateArgs -> result (list str))
    (t : TransactionRequest Amount) (reply : str) (others : list str) :
  messages_create
    {| model := chars "claude-3-5-sonnet-20241022"; max_tokens := 1024;
       temperature_tenths := 3; content := build_fraud_prompt format_2f t |}
  = Ok (reply :: others) ->
  (exists a, parse_claude_response reply = Ok a /\
     analyze_transaction format_2f messages_create t
     = Ok {| resp_transaction_id := transaction_id t;
             resp_risk_level := risk_level a;
             resp_confidence := confidence a;
             resp_reasoning := reasoning a;
             resp_red_flags := red_flags a;
             resp_recommendations := recommendations a |}) /\
  (forall messages_create' r',
     analyze_transaction format_2f messages_create' t = Ok r' ->
     resp_transaction_id r' = transaction_id t).
Proof.
  intros H. split.
  - eexists. split; [apply parse_fields|].
    unfold analyze_transaction, analyze_body. rewrite H. cbn [bind first_text].
    rewrite parse_fields. reflexivity.
  - intros create' r'. unfold analyze_transaction, analyze_body.
    destruct (create' _) as [blocks|e]; cbn [bind]; [|discriminate].
    destruct blocks as [|b blocks]; cbn [first_text bind]; [discriminate|].
    rewrite parse_fields. cbn [bind]. intros [= <-]. reflexivity.
Qed.

Lemma analyze_transaction_echoes_id_witness :
  resp_transaction_id
    (match analyze_transaction cents_2f canned_client low_risk_request with
     | Ok r => r
     | Raise _ =>
         {| resp_transaction_id := []; resp_risk_level := [];
            resp_confidence := []; resp_reasoning := [];
            resp_red_flags := []; resp_recommendations := [] |}
     end)
  = chars "txn_low_001".
Proof.
  destruct (analyze_transaction_echoes_id cents_2f canned_client
              low_risk_request synthetic_reply [] eq_refl)
    as [(a & _ & E) _].
  rewrite E. reflexivity.
Defined.

(** * Further properties of the sanitizer *)

Lemma subseq_refl (s : str) : subseq s s.
Proof. induction s; auto using subseq. Qed.

Lemma subseq_trans (a b c : str) : subseq a b -> subseq b c -> subseq a c.
Proof.
  intros Hab Hbc. revert a Hab.
  induction Hbc as [|x b c Hbc IH|x b c Hbc IH]; intros a Hab.
  - exact Hab.
  - apply subseq_skip. auto.
  - inversion Hab; subst; auto using subseq.
Qed.

Lemma subseq_length (a b : str) : subseq a b -> length a <= length b.
Proof. induction 1; simpl; lia. Qed.

Lemma subseq_app (a b a' b' : str) :
  subseq a b -> subseq a' b' -> subseq (a ++ a') (b ++ b').
Proof. induction 1; simpl; auto using subseq. Qed.

Lemma subseq_rev (a b : str) : subseq a b -> subseq (rev a) (rev b).
Proof.
  induction 1; simpl.
  - constructor.
  - rewrite <- (app_nil_r (rev a)). apply subseq_app; auto using subseq.
  - apply subseq_app; auto using subseq.
Qed.

Lemma subseq_lstrip (s : str) : subseq (lstrip s) s.
Proof.
  induction s as [|c s IH]; simpl; [constructor|].
  destruct (isspace c); [apply subseq_skip, IH | apply subseq_refl].
Qed.

Lemma subseq_strip (s : str) : subseq (strip s) s.
Proof.
  unfold strip, rstrip. apply subseq_trans with (lstrip s).
  - rewrite <- (rev_involutive (lstrip s)) at 2.
    apply subseq_rev, subseq_lstrip.
  - apply subseq_lstrip.
Qed.

Lemma subseq_sub_from (r : regex) (s : str) :
  forall n, subseq (sub_from r n s) s.
Proof.
  induction s as [|c s IH]; intros n; cbn [sub_from]; [constructor|].
  destruct n as [|n]; [|apply subseq_skip, IH].
  destruct (match_at r (c :: s)) as [m|]; [|apply subseq_keep, IH].
  destruct (length (c :: s) - length (rest m));
    [apply subseq_keep | apply subseq_skip]; apply IH.
Qed.

Lemma subseq_passes (ps : list regex) (text : str) :
  subseq (passes ps text) text.
Proof.
  revert text. induction ps as [|p ps IH]; intros text; simpl.
  - apply subseq_refl.
  - fold (passes ps (sub p text)).
    apply subseq_trans with (sub p text); [apply IH|].
    apply subseq_sub_from.
Qed.

(** X1: [sanitize_input] only deletes characters: what it returns is the
    input with some characters left out, in the same order, and so is never
    longer than the input. *)
Theorem sanitize_input_only_deletes (text : str) :
  subseq (sanitize_input text) text /\
  length (sanitize_input text) <= length text.
Proof.
  assert (H : subseq (sanitize_input text) text).
  { rewrite sanitize_input_passes.
    apply subseq_trans with (passes injection_patterns text).
    - apply subseq_strip.
    - apply subseq_passes. }
  split; [exact H | apply subseq_length, H].
Qed.

(** ** Trimmed texts *)

Lemma lstrip_head (s : str) (c : ascii) (t : str) :
  lstrip s = c :: t -> isspace c = false.
Proof.
  induction s as [|d s IH]; simpl; [discriminate|].
  destruct (isspace d) eqn:E; [exact IH|]. intros [= <- _]. exact E.
Qed.

Lemma lstrip_keep (c : ascii) (t : str) :
  isspace c = false -> lstrip (c :: t) = c :: t.
Proof. intros H. simpl. rewrite H. reflexivity. Qed.

Lemma lstrip_app_last (x : str) (c : ascii) :
  isspace c = false -> exists z, lstrip (x ++ [c]) = z ++ [c].
Proof.
  intros H. induction x as [|d x IH]; simpl.
  - rewrite H. exists []. reflexivity.
  - destruct (isspace d); [exact IH|]. exists (d :: x). reflexivity.
Qed.

Lemma rstrip_head (c : ascii) (t : str) :
  isspace c = false -> exists t', rstrip (c :: t) = c :: t'.
Proof.
  intros H. unfold rstrip. simpl rev.
  destruct (lstrip_app_last (rev t) c H) as [z ->].
  rewrite rev_app_distr. simpl. eauto.
Qed.

Lemma rstrip_last (s : str) (d : ascii) :
  rstrip s <> [] -> isspace (last (rstrip s) d) = false.
Proof.
  unfold rstrip. destruct (lstrip (rev s)) as [|e u] eqn:E;
    [simpl; congruence|].
  intros _. simpl rev. rewrite last_last. eapply lstrip_head, E.
Qed.

Lemma strip_no_edge_space (s : str) : no_edge_space (strip s).
Proof.
  unfold no_edge_space. destruct (strip s) as [|c t] eqn:E; [exact I|].
  unfold strip in E. destruct (lstrip s) as [|c0 t0] eqn:El.
  - discriminate E.
  - pose proof (lstrip_head _ _ _ El) as Hc0.
    destruct (rstrip_head c0 t0 Hc0) as [t' Ht'].
    assert (c = c0) by congruence. subst c0. split; [exact Hc0|].
    rewrite <- E. apply rstrip_last. congruence.
Qed.

Lemma no_edge_space_strip (s : str) : no_edge_space s -> strip s = s.
Proof.
  destruct s as [|c t]; [reflexivity|]. intros [Hc Hl].
  unfold strip. rewrite (lstrip_keep c t Hc). unfold rstrip.
  destruct (rev (c :: t)) as [|e u] eqn:E.
  - apply (f_equal (@length ascii)) in E. rewrite length_rev in E.
    discriminate E.
  - assert (He : e = last (c :: t) c).
    { rewrite <- (rev_involutive (c :: t)), E. simpl rev.
      rewrite last_last. reflexivity. }
    rewrite He, lstrip_keep by exact Hl. rewrite <- He, <- E.
    apply rev_involutive.
Qed.

Lemma strip_idem (s : str) : strip (strip s) = strip s.
Proof. apply no_edge_space_strip, strip_no_edge_space. Qed.

(** X2: the text [sanitize_input] returns neither starts nor ends with
    whitespace, so trimming it again changes nothing. *)
Theorem sanitize_input_trimmed (text : str) :
  no_edge_space (sanitize_input text) /\
  strip (sanitize_input text) = sanitize_input text.
Proof.
  rewrite sanitize_input_passes.
  split; [apply strip_no_edge_space | apply strip_idem].
Qed.

Lemma pattern_occurs_search (s : str) :
  ~ pattern_occurs s <-> forall p, In p injection_patterns -> search p s = None.
Proof.
  split.
  - intros H p Hp. destruct (search p s) eqn:E; [|reflexivity].
    exfalso. apply H. exists p. split; [exact Hp|].
    apply search_occurs; [apply injection_patterns_plain, Hp | congruence].
  - intros H (p & Hp & Ho).
    revert Ho. apply not_occurs_search; [apply injection_patterns_plain|]; auto.
Qed.

Lemma sanitize_input_clean (s : str) :
  ~ pattern_occurs s -> sanitize_input s = strip s.
Proof.
  intros H. rewrite sanitize_input_passes. f_equal.
  apply passes_no_match, pattern_occurs_search, H.
Qed.

Lemma sanitize_input_dirty (s : str) :
  pattern_occurs s -> ink (sanitize_input s) < ink s.
Proof.
  intros H. rewrite sanitize_input_passes, ink_strip.
  apply ink_passes_match; [exact injection_patterns_letter | exact H].
Qed.

(** X3: a text of whitespace only, the empty text included, is sanitized to
    the empty text. *)
Theorem sanitize_input_blank (text : str) :
  forallb isspace text = true -> sanitize_input text = [].
Proof.
  intros H. rewrite sanitize_input_clean; [apply strip_spaces, H|].
  intros (p & Hp & pre & w & post & E & D).
  destruct (injection_patterns_letter p Hp) as [_ Hs].
  destruct (starts_with_word_char_spec p w Hs D) as (c & w' & -> & Hc).
  subst text. rewrite forallb_app in H. apply andb_true_iff in H as [_ H].
  simpl in H. rewrite Hc in H. discriminate H.
Qed.

Lemma sanitize_input_blank_witness :
  sanitize_input (chars "   ") = [].
Proof. apply sanitize_input_blank. reflexivity. Defined.

(** X4: sanitizing a second time changes nothing exactly when no pattern
    matches in the first result. *)
Theorem sanitize_input_twice (text : str) :
  sanitize_input (sanitize_input text) = sanitize_input text <->
  ~ pattern_occurs (sanitize_input text).
Proof.
  split.
  - intros E H. apply sanitize_input_dirty in H. rewrite E in H. lia.
  - intros H. rewrite (sanitize_input_clean _ H).
    rewrite sanitize_input_passes. apply strip_idem.
Qed.

Lemma sanitize_input_twice_witness :
  sanitize_input (sanitize_input (chars " pay user: now "))
  = sanitize_input (chars " pay user: now ").
Proof.
  apply sanitize_input_twice. apply pattern_occurs_search. intros p Hp.
  repeat (destruct Hp as [<-|Hp]; [vm_compute; reflexivity|]). destruct Hp.
Defined.

(** * Letter case *)









Section RepeatLower.
Variables R R' : Type.
Variable F : R -> R'.
Variable p : ascii -> bool.
Variable k : str -> option R.
Variable k' : str -> option R'.
Hypothesis p_lower : forall c, p (lower_char c) = p c.
Hypothesis k_lower : forall u, k' (lower u) = option_map F (k u).



End RepeatLower.












(** * Further properties of the parser *)





Lemma subseq_In (a b : str) (c : ascii) : subseq a b -> In c a -> In c b.
Proof.
  induction 1; simpl; auto.
  intros [->|H']; auto.
Qed.

Lemma split_no_sep (sep : ascii) (t x : str) :
  In x (split sep t) -> ~ In sep x.
Proof.
  revert x. induction t as [|c t IH]; intros x; simpl.
  - intros [<-|[]]. auto.
  - destruct (Ascii.eqb c sep) eqn:E.
    + intros [<-|H]; auto.
    + apply Ascii.eqb_neq in E.
      destruct (split sep t) as [|seg segs] eqn:Es.
      * intros [<-|[]]. intros [->|[]]. congruence.
      * intros [<-|H].
        -- intros [->|H']; [congruence|]. revert H'. apply IH. left.
           reflexivity.
        -- apply IH. right. exact H.
Qed.

Lemma stripped_segment_spec (segs : list str) (f : str) :
  In f (stripped_segments segs) ->
  exists x, In x segs /\ f = strip x /\ f <> [].
Proof.
  unfold stripped_segments. intros H. apply in_map_iff in H as (x & <- & H).
  apply filter_In in H as [H T]. exists x. repeat split; auto.
  destruct (strip x); [discriminate | discriminate].
Qed.

(** X7: whatever the reply is, [reasoning] and [recommendations] come out
    trimmed, and every entry of [red_flags] is non-empty, trimmed and free
    of commas. *)
Theorem parsed_texts_are_trimmed (s : str) :
  exists a, parse_claude_response s = Ok a /\
    no_edge_space (reasoning a) /\
    no_edge_space (recommendations a) /\
    forall f, In f (red_flags a) ->
      f <> [] /\ no_edge_space f /\ ~ In ","%char f.
Proof.
  eexists. split; [apply parse_fields|].
  cbn [reasoning recommendations red_flags]. repeat split.
  - destruct (field reason_re s); [apply strip_no_edge_space | exact I].
  - destruct (field rec_re s); [apply strip_no_edge_space | exact I].
  - destruct (field flags_re s) as [g|]; [|destruct H].
    destruct (str_eqb (lower (strip g)) (chars "none")); [destruct H|].
    apply stripped_segment_spec in H as (x & _ & _ & Hn). exact Hn.
  - destruct (field flags_re s) as [g|]; [|destruct H].
    destruct (str_eqb (lower (strip g)) (chars "none")); [destruct H|].
    apply stripped_segment_spec in H as (x & _ & -> & _).
    apply strip_no_edge_space.
  - destruct (field flags_re s) as [g|]; [|destruct H].
    destruct (str_eqb (lower (strip g)) (chars "none")); [destruct H|].
    apply stripped_segment_spec in H as (x & Hx & -> & _).
    intros Hc. apply (split_no_sep _ _ _ Hx).
    eapply subseq_In; [apply subseq_strip | exact Hc].
Qed.

(** ** recommendations *)

Lemma strip_lstrip (s : str) : strip (lstrip s) = strip s.
Proof.
  unfold strip. f_equal.
  induction s as [|c s IH]; [reflexivity|]. simpl.
  destruct (isspace c) eqn:E; [exact IH|]. simpl. rewrite E. reflexivity.
Qed.

Lemma drop_while_any (t : str) : drop_while (in_cls Any) t = [].
Proof. induction t; auto. Qed.

(** Group 1 of [rec_re] at the start of [u]. *)
Lemma group_at_rec (u : str) :
  group_at rec_re u =
  match strip_prefix_ci (chars "RECOMMENDATIONS:") u with
  | Some r0 =>
      match lstrip r0 with
      | c :: t => Some (c :: t)
      | [] => match r0 with [] => None | _ => Some [last r0 " "%char] end
      end
  | None => None
  end.
Proof.
  unfold group_at, match_at, rec_re. cbn [cat run]. rewrite run_lit.
  destruct (strip_prefix_ci (chars "RECOMMENDATIONS:") u) as [r0|];
    [|reflexivity].
  set (K := fun s' : str =>
         plus (in_cls Any)
           (fun s'' => Some {| rest := s'';
                               group1 := Some (firstn (length s' - length s'')
                                                      s') |}) s').
  assert (HK : forall c t, K (c :: t) =
            Some {| rest := []; group1 := Some (c :: t) |}).
  { intros c t. unfold K. cbn [plus in_cls].
    rewrite star_total by discriminate. rewrite drop_while_any.
    cbn [length]. rewrite Nat.sub_0_r.
    change (S (length t)) with (length (c :: t)). rewrite firstn_all.
    reflexivity. }
  change (match star (in_cls Space) K r0 with
          | Some m => group1 m
          | None => None
          end = match lstrip r0 with
                | c :: t => Some (c :: t)
                | [] => match r0 with
                        | [] => None
                        | _ => Some [last r0 " "%char]
                        end
                end).
  rewrite (star_give_back _ (in_cls Space) K eq_refl) with (d := " "%char).
  2:{ intros c t. rewrite HK. discriminate. }
  rewrite lstrip_drop_while. change (in_cls Space) with isspace.
  destruct (drop_while isspace r0) as [|c t].
  - destruct r0 as [|e r0]; [reflexivity|]. rewrite HK. reflexivity.
  - rewrite HK. reflexivity.
Qed.

Lemma field_rec (s : str) :
  match field rec_re s with
  | Some g => strip g
  | None => []
  end =
  match after_label (chars "RECOMMENDATIONS:") s with
  | Some r0 => strip r0
  | None => []
  end.
Proof.
  rewrite field_leftmost by reflexivity.
  destruct (after_label (chars "RECOMMENDATIONS:") s) as [r0|] eqn:Ea.
  - apply leftmost_some in Ea as (pre & suf & -> & Hs & Hmin).
    rewrite leftmost_skip.
    2:{ intros pre1 pre2 E1 E2. rewrite group_at_rec.
        rewrite (Hmin pre1 pre2 E1 E2). reflexivity. }
    pose proof (group_at_rec suf) as G. rewrite Hs in G.
    rewrite <- (strip_lstrip r0).
    destruct (lstrip r0) as [|c t] eqn:El.
    + destruct r0 as [|e r0].
      * apply strip_prefix_ci_length in Hs. simpl in Hs.
        replace (leftmost (group_at rec_re) suf) with (@None str);
          [reflexivity|].
        symmetry. destruct suf as [|c suf]; cbn [leftmost]; rewrite G;
          [reflexivity|].
        apply leftmost_short with (n := 16).
        -- intros u Hu. rewrite group_at_rec.
           rewrite strip_prefix_ci_short; auto.
        -- simpl in Hs. lia.
      * rewrite (leftmost_here _ _ _ G). apply strip_spaces.
        cbn [forallb]. rewrite andb_true_r.
        apply last_space; [discriminate|]. apply lstrip_nil, El.
    + rewrite (leftmost_here _ _ _ G). reflexivity.
  - replace (leftmost (group_at rec_re) s) with (@None str); [reflexivity|].
    symmetry. apply leftmost_none. intros pre suf ->.
    unfold after_label in Ea. rewrite leftmost_none in Ea.
    rewrite group_at_rec, (Ea pre suf eq_refl). reflexivity.
Qed.

(** X8: [recommendations] is everything after the first [RECOMMENDATIONS:]
    label, in any letter case, up to the end of the reply, trimmed: later
    labels and their text are part of it.  It is empty when the label is
    absent. *)
Theorem recommendations_to_end (s : str) :
  exists a, parse_claude_response s = Ok a /\
    recommendations a
    = match after_label (chars "RECOMMENDATIONS:") s with
      | Some r0 => strip r0
      | None => []
      end.
Proof.
  eexists. split; [apply parse_fields|]. cbn [recommendations].
  apply field_rec.
Qed.

(** ** A missing closing label *)

Lemma starts_ci_occurs (stop t : str) :
  starts_ci stop t = true -> occurs_ci stop t.
Proof.
  unfold starts_ci. destruct (strip_prefix_ci stop t) as [r|] eqn:E;
    [|discriminate].
  intros _. apply strip_prefix_ci_spec in E as (m & -> & Hm).
  exists [], m, r. auto.
Qed.

Lemma occurs_ci_cons (stop : str) (c : ascii) (t : str) :
  occurs_ci stop t -> occurs_ci stop (c :: t).
Proof.
  intros (pre & m & post & -> & Hm). exists (c :: pre), m, post. auto.
Qed.

Lemma occurs_ci_app (stop ws t : str) :
  occurs_ci stop t -> occurs_ci stop (ws ++ t).
Proof.
  intros H. induction ws as [|w ws IH]; [exact H|].
  apply occurs_ci_cons, IH.
Qed.

Lemma until_label_absent (stop t : str) :
  ~ occurs_ci stop t -> until_label stop t = t.
Proof.
  induction t as [|c t IH]; [reflexivity|]. intros H. cbn [until_label].
  destruct (starts_ci stop (c :: t)) eqn:E.
  - exfalso. apply H, starts_ci_occurs, E.
  - rewrite IH; [reflexivity|]. intros Ho. apply H, occurs_ci_cons, Ho.
Qed.

Lemma between_labels_open (l stop s r0 : str) :
  after_label l s = Some r0 -> ~ occurs_ci stop r0 ->
  between_labels l stop s = Some (strip r0).
Proof.
  intros Ha Hn. unfold between_labels. rewrite Ha. f_equal.
  rewrite <- (strip_lstrip r0).
  destruct (lstrip_split r0) as (ws & _ & E).
  destruct (lstrip r0) as [|c t]; [reflexivity|].
  rewrite until_label_absent; [reflexivity|].
  intros Ho. apply Hn. rewrite E. apply occurs_ci_app, occurs_ci_cons, Ho.
Qed.

(** X9: when no [RED_FLAGS:] label follows the first [REASONING:] label,
    [reasoning] is all the text after that label, trimmed, whatever other
    labels it holds; in the same way [red_flags] is read from all the text
    after the first [RED_FLAGS:] label when no [RECOMMENDATIONS:] label
    follows it. *)
Theorem missing_closing_label (s : str) :
  exists a, parse_claude_response s = Ok a /\
    (forall r0, after_label (chars "REASONING:") s = Some r0 ->
       ~ occurs_ci (chars "RED_FLAGS:") r0 -> reasoning a = strip r0) /\
    (forall r0, after_label (chars "RED_FLAGS:") s = Some r0 ->
       ~ occurs_ci (chars "RECOMMENDATIONS:") r0 ->
       red_flags a = flags_of (Some (strip r0))).
Proof.
  eexists. split; [apply parse_fields|]. cbn [reasoning red_flags].
  change reason_re
    with (between_re (chars "REASONING:") (chars "RED_FLAGS:")).
  change flags_re
    with (between_re (chars "RED_FLAGS:") (chars "RECOMMENDATIONS:")).
  rewrite text_between, flags_between. split; intros r0 Ha Hn;
    rewrite (between_labels_open _ _ _ _ Ha Hn); reflexivity.
Qed.

Lemma missing_closing_label_witness :
  exists a,
    parse_claude_response
      (chars "REASONING: odd hour. RECOMMENDATIONS: review") = Ok a /\
    reasoning a = chars "odd hour. RECOMMENDATIONS: review".
Proof.
  destruct (missing_closing_label
              (chars "REASONING: odd hour. RECOMMENDATIONS: review"))
    as (a & Ha & H1 & _).
  exists a. split; [exact Ha|].
  rewrite (H1 (chars " odd hour. RECOMMENDATIONS: review")).
  - reflexivity.
  - reflexivity.
  - apply not_occurs_ci. reflexivity.
Defined.

(** ** The parser and letter case *)







(** ** Where a label can start *)

Lemma ieq_colon_b (d : ascii) :
  implb (ieq ":"%char d) (Ascii.eqb d ":"%char) = true.
Proof. by_cases_on_ascii d. Qed.

Lemma ieq_colon (d : ascii) : ieq ":"%char d = true -> d = ":"%char.
Proof.
  intros H. pose proof (ieq_colon_b d) as K. rewrite H in K.
  apply Ascii.eqb_eq, K.
Qed.

(** A label is made of word characters and a colon, so it cannot start in a
    text that has no colon before its next whitespace. *)
Lemma label_not_across_space (l0 z : str) (w : ascii) (s : str) :
  forallb isword l0 = true -> ~ In ":"%char z -> isspace w = true ->
  strip_prefix_ci (l0 ++ [":"%char]) (z ++ w :: s) = None.
Proof.
  intros Hl Hz Hw. revert z Hz.
  induction l0 as [|c l0 IH]; intros z Hz.
  - destruct z as [|d z]; cbn [app strip_prefix_ci].
    + destruct (ieq ":"%char w) eqn:E; [|reflexivity].
      apply ieq_isspace in E. rewrite Hw in E. discriminate E.
    + destruct (ieq ":"%char d) eqn:E; [|reflexivity].
      apply ieq_colon in E. exfalso. apply Hz. left. auto.
  - cbn [forallb] in Hl. apply andb_true_iff in Hl as [Hc Hl].
    destruct z as [|d z]; cbn [app strip_prefix_ci].
    + rewrite (word_not_ieq_space c w Hc Hw). reflexivity.
    + destruct (ieq c d); [|reflexivity].
      apply (IH Hl). intros H. apply Hz. right. exact H.
Qed.

Lemma suffix_of_snoc (pre1 pre2 z : str) (w : ascii) :
  z ++ [w] = pre1 ++ pre2 -> pre2 <> [] ->
  exists z1 z2, z = z1 ++ z2 /\ pre2 = z2 ++ [w].
Proof.
  revert z. induction pre1 as [|a pre1 IH]; intros z E Hn.
  - exists [], z. auto.
  - destruct z as [|b z].
    + simpl in E. injection E as _ E. symmetry in E.
      apply app_eq_nil in E as [_ E]. congruence.
    + simpl in E. injection E as -> E.
      destruct (IH z E Hn) as (z1 & z2 & -> & ->).
      exists (a :: z1), z2. auto.
Qed.

Lemma no_label_start_value (l0 z : str) (w : ascii) (suf : str) :
  forallb isword l0 = true -> ~ In ":"%char z -> isspace w = true ->
  no_label_start (l0 ++ [":"%char]) (z ++ [w]) suf.
Proof.
  intros Hl Hz Hw pre1 pre2 E Hn.
  destruct (suffix_of_snoc _ _ _ _ E Hn) as (z1 & z2 & -> & ->).
  rewrite <- app_assoc. apply label_not_across_space; auto.
  intros H. apply Hz, in_or_app. right. exact H.
Qed.

Lemma no_label_start_app (l a b suf : str) :
  no_label_start l a (b ++ suf) -> no_label_start l b suf ->
  no_label_start l (a ++ b) suf.
Proof.
  intros Ha Hb pre1. revert a Ha.
  induction pre1 as [|c pre1 IH]; intros a Ha pre2 E Hn.
  - simpl in E. subst pre2. destruct a as [|d a].
    + apply (Hb [] b); auto.
    + rewrite <- app_assoc. apply (Ha [] (d :: a)); [reflexivity|].
      discriminate.
  - destruct a as [|d a].
    + apply (Hb (c :: pre1) pre2); auto.
    + simpl in E. injection E as -> E.
      apply (IH a); auto.
      intros p1 p2 -> Hp. apply (Ha (c :: p1) p2); auto.
Qed.

Lemma blocked_spec (l x suf : str) :
  blocked l x = true -> strip_prefix_ci l (x ++ suf) = None.
Proof.
  revert x. induction l as [|c l IH]; intros [|d x]; simpl; try discriminate.
  destruct (ieq c d); auto.
Qed.

Lemma tails_spec (x pre1 pre2 : str) : x = pre1 ++ pre2 -> In pre2 (tails x).
Proof.
  revert x. induction pre1 as [|c pre1 IH]; intros x ->.
  - destruct pre2; left; reflexivity.
  - right. apply IH. reflexivity.
Qed.

Lemma no_label_start_blocked (l a suf : str) :
  forallb (fun x => match x with [] => true | _ => blocked l x end) (tails a)
    = true ->
  no_label_start l a suf.
Proof.
  intros H pre1 pre2 E Hn. rewrite forallb_forall in H.
  specialize (H pre2 (tails_spec _ _ _ E)).
  destruct pre2; [congruence|]. apply blocked_spec, H.
Qed.

Lemma leftmost_skip_label {A} (l pre suf : str) (f : str -> option A) :
  (forall u, strip_prefix_ci l u = None -> f u = None) ->
  no_label_start l pre suf ->
  leftmost f (pre ++ suf) = leftmost f suf.
Proof.
  intros Hf Hn. apply leftmost_skip. intros pre1 pre2 E1 E2.
  apply Hf. apply (Hn pre1 pre2); auto.
Qed.

Lemma group_at_label (l : str) (r : regex) (u : str) :
  strip_prefix_ci l u = None -> group_at (Cat (lit l) r) u = None.
Proof. intros H. unfold group_at. rewrite match_at_label; auto. Qed.

Lemma field_skip (l0 : str) (r : regex) (pre suf : str) :
  sets_group (Cat (lit (l0 ++ [":"%char])) r) = true ->
  no_label_start (l0 ++ [":"%char]) pre suf ->
  field (Cat (lit (l0 ++ [":"%char])) r) (pre ++ suf)
  = field (Cat (lit (l0 ++ [":"%char])) r) suf.
Proof.
  intros Hs Hn. rewrite !field_leftmost by exact Hs.
  apply (leftmost_skip_label (l0 ++ [":"%char])); [|exact Hn].
  intros u. apply group_at_label.
Qed.

(** X11: text before the reply proper does not change the parse when it
    holds no colon and ends in whitespace: a preamble such as a sentence
    and a newline is skipped. *)
Theorem preamble_is_skipped (z : str) (w : ascii) (s : str) :
  ~ In ":"%char z -> isspace w = true ->
  parse_claude_response (z ++ w :: s) = parse_claude_response s.
Proof.
  intros Hz Hw. rewrite !parse_fields.
  assert (K : forall l0 r,
            forallb isword l0 = true ->
            sets_group (Cat (lit (l0 ++ [":"%char])) r) = true ->
            field (Cat (lit (l0 ++ [":"%char])) r) (z ++ w :: s)
            = field (Cat (lit (l0 ++ [":"%char])) r) s).
  { intros l0 r Hl Hs. change (z ++ w :: s) with (z ++ [w] ++ s).
    rewrite app_assoc. apply field_skip; [exact Hs|].
    apply no_label_start_value; auto. }
  assert (F1 : field risk_re (z ++ w :: s) = field risk_re s)
    by (apply (K (chars "RISK_LEVEL") (cat [Star Space; Grp (Plus Word)]));
        reflexivity).
  assert (F2 : field conf_re (z ++ w :: s) = field conf_re s)
    by (apply (K (chars "CONFIDENCE") (cat [Star Space; Grp (Plus Word)]));
        reflexivity).
  assert (F3 : field reason_re (z ++ w :: s) = field reason_re s)
    by (apply (K (chars "REASONING")
                 (cat [Star Space; Grp (PlusLazy Any);
                       Ahead (Alt (lit (chars "RED_FLAGS:")) Eos)]));
        reflexivity).
  assert (F4 : field flags_re (z ++ w :: s) = field flags_re s)
    by (apply (K (chars "RED_FLAGS")
                 (cat [Star Space; Grp (PlusLazy Any);
                       Ahead (Alt (lit (chars "RECOMMENDATIONS:")) Eos)]));
        reflexivity).
  assert (F5 : field rec_re (z ++ w :: s) = field rec_re s)
    by (apply (K (chars "RECOMMENDATIONS")
                 (cat [Star Space; Grp (Plus Any)]));
        reflexivity).
  rewrite F1, F2, F3, F4, F5. reflexivity.
Qed.

Lemma preamble_is_skipped_witness :
  parse_claude_response (chars "Here is my analysis" ++ nl :: synthetic_reply)
  = parse_claude_response synthetic_reply.
Proof.
  apply preamble_is_skipped; [|reflexivity].
  intros H. repeat (destruct H as [H|H]; [discriminate H|]). exact H.
Defined.

(** ** Replies in the format the prompt asks for *)

Lemma render_reply_lines (rl cf rs : str) (fl : list str) (rc : str) :
  render_reply rl cf rs fl rc =
  chars "RISK_LEVEL:" ++ value_line rl ++
  chars "CONFIDENCE:" ++ value_line cf ++
  chars "REASONING:" ++ value_line rs ++
  chars "RED_FLAGS:" ++ value_line (join_flags fl) ++
  chars "RECOMMENDATIONS:" ++ " "%char :: rc.
Proof.
  unfold render_reply, value_line. simpl.
  rewrite <- !app_assoc. reflexivity.
Qed.

Lemma strip_prefix_ci_self (l r : str) : strip_prefix_ci l (l ++ r) = Some r.
Proof.
  induction l as [|c l IH]; [reflexivity|]. simpl. rewrite ieq_refl. exact IH.
Qed.

Lemma word_not_colon (w : str) :
  forallb isword w = true -> ~ In ":"%char w.
Proof.
  intros H Hin. rewrite forallb_forall in H. specialize (H _ Hin).
  discriminate H.
Qed.

Lemma word_head_not_space (w : str) :
  forallb isword w = true -> lstrip w = w.
Proof.
  destruct w as [|c w]; [reflexivity|]. simpl. intros H.
  apply andb_true_iff in H as [Hc _].
  destruct (isspace c) eqn:E; [|reflexivity].
  apply space_not_word in E. congruence.
Qed.

Lemma take_while_app_stop (p : ascii -> bool) (w : str) (d : ascii)
    (r : str) :
  forallb p w = true -> p d = false -> take_while p (w ++ d :: r) = w.
Proof.
  intros Hw Hd. induction w as [|c w IH]; simpl.
  - rewrite Hd. reflexivity.
  - simpl in Hw. apply andb_true_iff in Hw as [-> Hw]. rewrite IH; auto.
Qed.

Lemma value_line_no_label (l0 v suf : str) :
  forallb isword l0 = true -> ~ In ":"%char v ->
  no_label_start (l0 ++ [":"%char]) (value_line v) suf.
Proof.
  intros Hl Hv. unfold value_line.
  apply no_label_start_value; [exact Hl | | reflexivity].
  intros [H|H]; [discriminate H | auto].
Qed.

Lemma word_after_value (l w rest : str) :
  word_text w -> word_after l (l ++ value_line w ++ rest) = Some w.
Proof.
  intros [Hn Hw]. unfold word_after, value_line.
  rewrite strip_prefix_ci_self. cbn [app lstrip].
  change (isspace " "%char) with true. cbv iota.
  rewrite <- app_assoc. cbn [app].
  assert (E : lstrip (w ++ nl :: rest) = w ++ nl :: rest).
  { destruct w as [|c w]; [congruence|]. cbn [app lstrip].
    simpl in Hw. apply andb_true_iff in Hw as [Hc _].
    destruct (isspace c) eqn:E; [|reflexivity].
    apply space_not_word in E. congruence. }
  rewrite E, take_while_app_stop by (auto; reflexivity).
  destruct w; [congruence | reflexivity].
Qed.

Lemma word_after_label (l u : str) :
  strip_prefix_ci l u = None -> word_after l u = None.
Proof. intros H. unfold word_after. rewrite H. reflexivity. Qed.

Lemma until_label_at (stop x suf : str) :
  no_label_start stop x suf -> starts_ci stop suf = true ->
  until_label stop (x ++ suf) = x.
Proof.
  intros Hn Hs. induction x as [|c x IH].
  - destruct suf as [|d suf]; [reflexivity|]. cbn [app until_label].
    rewrite Hs. reflexivity.
  - pose proof (Hn [] (c :: x) eq_refl ltac:(discriminate)) as E.
    cbn [app] in E. cbn [app until_label]. unfold starts_ci at 1.
    rewrite E, IH; [reflexivity|].
    intros p1 p2 -> Hp. apply (Hn (c :: p1) p2); auto.
Qed.

(** The span of a value between its label and the next one. *)
Lemma between_labels_value (l stop0 v s rest : str) :
  forallb isword stop0 = true -> free_text v ->
  after_label l s = Some (value_line v ++ (stop0 ++ [":"%char]) ++ rest) ->
  between_labels l (stop0 ++ [":"%char]) s = Some v.
Proof.
  intros Hs (Hn & He & Hc) Ha. unfold between_labels. rewrite Ha.
  destruct v as [|c t]; [congruence|].
  destruct He as [Hh Hl].
  unfold value_line. cbn [app lstrip].
  change (isspace " "%char) with true. cbv iota. rewrite Hh.
  f_equal. rewrite <- app_assoc, (app_assoc t [nl]).
  rewrite (until_label_at (stop0 ++ [":"%char]) (t ++ [nl])).
  - change (c :: t ++ [nl]) with ((c :: t) ++ [nl]).
    rewrite strip_space_r by reflexivity.
    apply no_edge_space_strip. split; assumption.
  - apply no_label_start_value; [exact Hs | | reflexivity].
    intros H. apply Hc. right. exact H.
  - unfold starts_ci. rewrite strip_prefix_ci_self. reflexivity.
Qed.

(** A label line and its value hold no start of another label. *)
Lemma skip_line {A} (l0 lj v rest : str) (f : str -> option A) :
  (forall u, strip_prefix_ci (l0 ++ [":"%char]) u = None -> f u = None) ->
  forallb isword l0 = true ->
  forallb (fun x => match x with
                    | [] => true
                    | _ => blocked (l0 ++ [":"%char]) x
                    end) (tails lj) = true ->
  ~ In ":"%char v ->
  leftmost f (lj ++ value_line v ++ rest) = leftmost f rest.
Proof.
  intros Hf Hl Hb Hv.
  rewrite (leftmost_skip_label (l0 ++ [":"%char]) lj); [|exact Hf|].
  - apply (leftmost_skip_label (l0 ++ [":"%char])); [exact Hf|].
    apply value_line_no_label; assumption.
  - apply no_label_start_blocked, Hb.
Qed.

(** ** The comma-separated list *)

Lemma str_eqb_eq (a b : str) : str_eqb a b = true <-> a = b.
Proof.
  revert b. induction a as [|c a IH]; intros [|d b]; simpl;
    try (split; [discriminate | discriminate]); [tauto|].
  rewrite andb_true_iff, IH, Ascii.eqb_eq. split.
  - intros [-> ->]. reflexivity.
  - intros [= -> ->]. auto.
Qed.

Lemma split_keep (sep : ascii) (x : str) :
  ~ In sep x -> split sep x = [x].
Proof.
  induction x as [|c x IH]; [reflexivity|]. intros H. simpl.
  destruct (Ascii.eqb c sep) eqn:E.
  - apply Ascii.eqb_eq in E. exfalso. apply H. left. exact E.
  - rewrite IH; [reflexivity|]. intros Hx. apply H. right. exact Hx.
Qed.

Lemma split_at_sep (sep : ascii) (x y : str) :
  ~ In sep x -> split sep (x ++ sep :: y) = x :: split sep y.
Proof.
  induction x as [|c x IH]; intros H; simpl.
  - rewrite Ascii.eqb_refl. reflexivity.
  - destruct (Ascii.eqb c sep) eqn:E.
    + apply Ascii.eqb_eq in E. exfalso. apply H. left. exact E.
    + rewrite IH; [reflexivity|]. intros Hx. apply H. right. exact Hx.
Qed.

Lemma flag_strip (ws f : str) :
  forallb isspace ws = true -> flag_text f -> strip (ws ++ f) = f.
Proof.
  intros Hw ((_ & He & _) & _). rewrite strip_spaces_l by exact Hw.
  apply no_edge_space_strip, He.
Qed.

Lemma comma_list_join (fl : list str) :
  fl <> [] -> Forall flag_text fl ->
  forall ws, forallb isspace ws = true -> ~ In ","%char ws ->
    comma_list (ws ++ join_flags fl) = fl.
Proof.
  unfold comma_list.
  induction fl as [|f fl IH]; [congruence|]. intros _ Hf ws Hw Hc.
  inversion Hf as [|f' fl' Hf1 Hf2]; subst.
  pose proof Hf1 as ((Hn & _ & _) & Hcomma & _).
  assert (Hwf : ~ In ","%char (ws ++ f)).
  { intros H. apply in_app_or in H as [H|H]; auto. }
  destruct fl as [|g fl].
  - cbn [join_flags]. rewrite split_keep by exact Hwf. cbn [map filter].
    rewrite (flag_strip ws f Hw Hf1).
    destruct f; [congruence | reflexivity].
  - change (join_flags (f :: g :: fl))
      with (f ++ ","%char :: [" "%char] ++ join_flags (g :: fl)).
    rewrite app_assoc, split_at_sep by exact Hwf. cbn [map filter].
    rewrite (flag_strip ws f Hw Hf1).
    rewrite (IH ltac:(discriminate) Hf2 [" "%char] eq_refl).
    + destruct f; [congruence | reflexivity].
    + intros [H|[]]. discriminate H.
Qed.

Lemma last_app_nonempty (a b : str) (d d' : ascii) :
  b <> [] -> last (a ++ b) d = last b d'.
Proof.
  intros Hb. induction a as [|c a IH].
  - destruct b as [|e b]; [congruence|]. clear Hb. cbn [app].
    revert e. induction b as [|e' b IHb]; intros e; [reflexivity|].
    apply (IHb e').
  - cbn [app]. destruct (a ++ b) eqn:E.
    + apply app_eq_nil in E as [_ E]. congruence.
    + rewrite <- IH. reflexivity.
Qed.

Lemma join_flags_free (fl : list str) :
  Forall flag_text fl -> free_text (join_flags fl) /\
  (fl <> [] -> lower (join_flags fl) <> chars "none").
Proof.
  intros Hf. induction Hf as [|f fl Hf1 Hf2 IH].
  - split; [|congruence]. repeat split; try discriminate.
    intros H. repeat (destruct H as [H|H]; [discriminate H|]). exact H.
  - destruct Hf1 as ((Hn & He & Hc) & Hcomma & Hnone).
    destruct fl as [|g fl].
    + cbn [join_flags]. repeat split; auto.
    + destruct IH as ((Jn & Je & Jc) & _).
      assert (E : join_flags (f :: g :: fl)
                  = (f ++ [","%char; " "%char]) ++ join_flags (g :: fl)).
      { change (join_flags (f :: g :: fl))
          with (f ++ [","%char; " "%char] ++ join_flags (g :: fl)).
        apply app_assoc. }
      rewrite E. clear E. remember (join_flags (g :: fl)) as j eqn:Ej.
      destruct f as [|c t]; [congruence|]. destruct He as [Hh Hl].
      destruct j as [|d u]; [congruence|]. destruct Je as [_ Jl].
      split; [repeat split|].
      * discriminate.
      * exact Hh.
      * rewrite (last_app_nonempty ((c :: t) ++ [","%char; " "%char])
                   (d :: u) c d) by discriminate.
        exact Jl.
      * intros H. apply in_app_or in H as [H|H]; [|auto].
        destruct H as [H|H]; [apply Hc; left; exact H|].
        apply in_app_or in H as [H|H]; [apply Hc; right; exact H|].
        destruct H as [H|[H|[]]]; discriminate H.
      * intros _ E.
        assert (K : In ","%char
                      (lower (((c :: t) ++ [","%char; " "%char]) ++ d :: u))).
        { change ","%char with (lower_char ","%char) at 1.
          apply in_map, in_or_app. left. right. apply in_or_app. right.
          left. reflexivity. }
        rewrite E in K.
        repeat (destruct K as [K|K]; [discriminate K|]). exact K.
Qed.

(** ** The round trip *)

Section RoundTrip.
Variables rl cf rs : str.
Variable fl : list str.
Variable rc : str.
Hypothesis rl_word : word_text rl.
Hypothesis cf_word : word_text cf.
Hypothesis rs_free : free_text rs.
Hypothesis fl_flags : Forall flag_text fl.
Hypothesis rc_trimmed : no_edge_space rc.

Lemma rl_no_colon : ~ In ":"%char rl.
Proof. apply word_not_colon, rl_word. Qed.

Lemma cf_no_colon : ~ In ":"%char cf.
Proof. apply word_not_colon, cf_word. Qed.

Lemma rs_no_colon : ~ In ":"%char rs.
Proof. apply rs_free. Qed.

Lemma flags_no_colon : ~ In ":"%char (join_flags fl).
Proof. apply (join_flags_free fl fl_flags). Qed.

Lemma reply_risk :
  first_word_after (chars "RISK_LEVEL:") (render_reply rl cf rs fl rc)
  = Some rl.
Proof.
  unfold first_word_after. rewrite render_reply_lines.
  apply leftmost_here, word_after_value, rl_word.
Qed.

Lemma reply_confidence :
  first_word_after (chars "CONFIDENCE:") (render_reply rl cf rs fl rc)
  = Some cf.
Proof.
  unfold first_word_after. rewrite render_reply_lines.
  rewrite (skip_line (chars "CONFIDENCE") (chars "RISK_LEVEL:") rl);
    [|apply word_after_label | reflexivity | reflexivity | exact rl_no_colon].
  apply leftmost_here, word_after_value, cf_word.
Qed.

Lemma reply_reasoning :
  after_label (chars "REASONING:") (render_reply rl cf rs fl rc)
  = Some (value_line rs ++ (chars "RED_FLAGS" ++ [":"%char]) ++
          value_line (join_flags fl) ++
          chars "RECOMMENDATIONS:" ++ " "%char :: rc).
Proof.
  unfold after_label. rewrite render_reply_lines.
  rewrite (skip_line (chars "REASONING") (chars "RISK_LEVEL:") rl);
    [|auto | reflexivity | reflexivity | exact rl_no_colon].
  rewrite (skip_line (chars "REASONING") (chars "CONFIDENCE:") cf);
    [|auto | reflexivity | reflexivity | exact cf_no_colon].
  apply leftmost_here, strip_prefix_ci_self.
Qed.

Lemma reply_red_flags :
  after_label (chars "RED_FLAGS:") (render_reply rl cf rs fl rc)
  = Some (value_line (join_flags fl) ++
          (chars "RECOMMENDATIONS" ++ [":"%char]) ++ " "%char :: rc).
Proof.
  unfold after_label. rewrite render_reply_lines.
  rewrite (skip_line (chars "RED_FLAGS") (chars "RISK_LEVEL:") rl);
    [|auto | reflexivity | reflexivity | exact rl_no_colon].
  rewrite (skip_line (chars "RED_FLAGS") (chars "CONFIDENCE:") cf);
    [|auto | reflexivity | reflexivity | exact cf_no_colon].
  rewrite (skip_line (chars "RED_FLAGS") (chars "REASONING:") rs);
    [|auto | reflexivity | reflexivity | exact rs_no_colon].
  apply leftmost_here, strip_prefix_ci_self.
Qed.

Lemma reply_recommendations :
  after_label (chars "RECOMMENDATIONS:") (render_reply rl cf rs fl rc)
  = Some (" "%char :: rc).
Proof.
  unfold after_label. rewrite render_reply_lines.
  rewrite (skip_line (chars "RECOMMENDATIONS") (chars "RISK_LEVEL:") rl);
    [|auto | reflexivity | reflexivity | exact rl_no_colon].
  rewrite (skip_line (chars "RECOMMENDATIONS") (chars "CONFIDENCE:") cf);
    [|auto | reflexivity | reflexivity | exact cf_no_colon].
  rewrite (skip_line (chars "RECOMMENDATIONS") (chars "REASONING:") rs);
    [|auto | reflexivity | reflexivity | exact rs_no_colon].
  rewrite (skip_line (chars "RECOMMENDATIONS") (chars "RED_FLAGS:")
             (join_flags fl));
    [|auto | reflexivity | reflexivity | exact flags_no_colon].
  apply leftmost_here, strip_prefix_ci_self.
Qed.

Lemma reply_flags_of : flags_of (Some (join_flags fl)) = fl.
Proof.
  destruct fl as [|f fl'] eqn:E; [reflexivity|].
  rewrite <- E in *. cbn [flags_of].
  destruct (join_flags_free fl fl_flags) as [_ Hn].
  destruct (str_eqb (lower (join_flags fl)) (chars "none")) eqn:Eq.
  - apply str_eqb_eq in Eq. exfalso. apply Hn; [|exact Eq].
    rewrite E. discriminate.
  - apply (comma_list_join fl) with (ws := []); auto.
    rewrite E. discriminate.
Qed.

(** X12: the parser reads back a reply written in the format the prompt
    asks for: for a word as risk level and as confidence, a non-empty
    trimmed reasoning without colon, red flags that are non-empty, trimmed,
    without colon or comma and not the word none, and any trimmed
    recommendation, parsing the five lines gives back these values, the two
    words in lower case. *)
Theorem parse_render_reply :
  parse_claude_response (render_reply rl cf rs fl rc)
  = Ok {| risk_level := lower rl;
          confidence := lower cf;
          reasoning := rs;
          red_flags := fl;
          recommendations := rc |}.
Proof.
  rewrite parse_fields. f_equal.
  change risk_re with (token_re (chars "RISK_LEVEL:")).
  change conf_re with (token_re (chars "CONFIDENCE:")).
  rewrite !field_token, reply_risk, reply_confidence.
  change reason_re
    with (between_re (chars "REASONING:") (chars "RED_FLAGS" ++ [":"%char])).
  change flags_re
    with (between_re (chars "RED_FLAGS:")
            (chars "RECOMMENDATIONS" ++ [":"%char])).
  rewrite text_between, flags_between, field_rec, reply_recommendations.
  rewrite (between_labels_value (chars "REASONING:") (chars "RED_FLAGS") rs
             (render_reply rl cf rs fl rc) _ eq_refl rs_free reply_reasoning).
  rewrite (between_labels_value (chars "RED_FLAGS:") (chars "RECOMMENDATIONS")
             (join_flags fl) (render_reply rl cf rs fl rc) _ eq_refl
             (proj1 (join_flags_free fl fl_flags)) reply_red_flags).
  rewrite reply_flags_of. cbn [text_or_empty].
  change (" "%char :: rc) with ([" "%char] ++ rc).
  rewrite strip_spaces_l by reflexivity.
  rewrite (no_edge_space_strip rc rc_trimmed). reflexivity.
Qed.
End RoundTrip.

Lemma parse_render_reply_witness :
  parse_claude_response
    (render_reply (chars "HIGH") (chars "medium") (chars "large amount.")
       [chars "unusual location"; chars "odd hour"] (chars "flag for review"))
  = Ok {| risk_level := chars "high";
          confidence := chars "medium";
          reasoning := chars "large amount.";
          red_flags := [chars "unusual location"; chars "odd hour"];
          recommendations := chars "flag for review" |}.
Proof.
  assert (C : forall s : str,
            forallb (fun c => negb (Ascii.eqb c ":"%char)) s = true ->
            ~ In ":"%char s).
  { intros s H Hin. rewrite forallb_forall in H. specialize (H _ Hin).
    discriminate H. }
  assert (K : forall s : str,
            forallb (fun c => negb (Ascii.eqb c ","%char)) s = true ->
            ~ In ","%char s).
  { intros s H Hin. rewrite forallb_forall in H. specialize (H _ Hin).
    discriminate H. }
  apply (parse_render_reply (chars "HIGH") (chars "medium")
           (chars "large amount.")
           [chars "unusual location"; chars "odd hour"]
           (chars "flag for review")).
  - split; [discriminate | reflexivity].
  - split; [discriminate | reflexivity].
  - split; [discriminate|]. split; [split; reflexivity|].
    apply C. reflexivity.
  - repeat constructor; try discriminate;
      try (apply C; reflexivity); try (apply K; reflexivity).
  - split; reflexivity.
Defined.

(** * Further properties of the service *)

(** X13: [analyze_transaction] succeeds exactly when the model client
    returns a message with at least one content block; when the client
    raises, or the message has no content block, the failure is an HTTP 500
    whose detail is the fixed prefix followed by the text of the error. *)
Theorem analyze_transaction_outcomes {Amount} (format_2f : Amount -> str)
    (messages_create : CreateArgs -> result (list str))
    (t : TransactionRequest Amount) :
  match messages_create (create_args format_2f t) with
  | Ok (reply :: _) =>
      exists r, analyze_transaction format_2f messages_create t = Ok r
  | Ok [] =>
      analyze_transaction format_2f messages_create t
      = Raise (HTTPException 500
                 (chars "Failed to analyze transaction: list index out of range"))
  | Raise e =>
      analyze_transaction format_2f messages_create t
      = Raise (HTTPException 500
                 (chars "Failed to analyze transaction: " ++ exn_str e))
  end.
Proof.
  unfold analyze_transaction, analyze_body.
  change {| model := chars "claude-3-5-sonnet-20241022"; max_tokens := 1024;
            temperature_tenths := 3;
            content := build_fraud_prompt format_2f t |}
    with (create_args format_2f t).
  destruct (messages_create (create_args format_2f t)) as [[|reply bs]|e];
    cbn [bind first_text]; try reflexivity.
  rewrite parse_fields. cbn [bind]. eauto.
Qed.



(** * What the sanitizer never deletes *)













(** * Whitespace after the reply *)

Section TrailingSpace.
Variable ws : str.
Hypothesis ws_space : forallb isspace ws = true.

Lemma ws_suffix_space (ws1 ws2 : str) :
  ws = ws1 ++ ws2 -> forallb isspace ws2 = true.
Proof.
  intros E. rewrite E, forallb_app in ws_space.
  apply andb_true_iff in ws_space as [_ H]. exact H.
Qed.

Lemma strip_prefix_ci_spaces (l u : str) :
  l <> [] -> forallb (fun c => negb (isspace c)) l = true ->
  forallb isspace u = true -> strip_prefix_ci l u = None.
Proof.
  destruct l as [|c l]; [congruence|]. intros _ Hl Hu.
  destruct u as [|w u]; [reflexivity|]. simpl in *.
  apply andb_true_iff in Hl as [Hc _]. apply andb_true_iff in Hu as [Hw _].
  destruct (ieq c w) eqn:E; [|reflexivity].
  apply ieq_isspace in E. rewrite Hw in E. rewrite E in Hc. discriminate Hc.
Qed.

Lemma strip_prefix_ci_append (l u : str) :
  forallb (fun c => negb (isspace c)) l = true ->
  strip_prefix_ci l (u ++ ws)
  = option_map (fun r => r ++ ws) (strip_prefix_ci l u).
Proof.
  intros Hl. revert u. induction l as [|c l IH]; intros u; [reflexivity|].
  destruct u as [|d u].
  - apply strip_prefix_ci_spaces; [discriminate | exact Hl | exact ws_space].
  - cbn [app strip_prefix_ci]. simpl in Hl.
    apply andb_true_iff in Hl as [_ Hl].
    destruct (ieq c d); [apply IH, Hl | reflexivity].
Qed.

Lemma leftmost_append {A B} (F : A -> B) (f : str -> option A)
    (f' : str -> option B) (s : str) :
  (forall u, f' (u ++ ws) = option_map F (f u)) ->
  (forall ws1 ws2, ws = ws1 ++ ws2 -> ws2 <> ws -> f' ws2 = None) ->
  leftmost f' (s ++ ws) = option_map F (leftmost f s).
Proof.
  intros H1 H2. induction s as [|c s IH].
  - cbn [app]. cbn [leftmost]. pose proof (H1 []) as E. cbn [app] in E.
    destruct (f []) as [x|]; cbn [option_map] in *.
    + apply leftmost_here, E.
    + apply leftmost_none. intros pre suf Hs.
      destruct pre as [|p pre]; [simpl in Hs; subst suf; exact E|].
      apply (H2 (p :: pre) suf Hs). intros ->.
      apply (f_equal (@length ascii)) in Hs. rewrite length_app in Hs.
      simpl in Hs. lia.
  - cbn [app leftmost]. pose proof (H1 (c :: s)) as E. cbn [app] in E.
    rewrite E, IH. destruct (f (c :: s)); reflexivity.
Qed.

Lemma after_label_append (l s : str) :
  l <> [] -> forallb (fun c => negb (isspace c)) l = true ->
  after_label l (s ++ ws)
  = option_map (fun r => r ++ ws) (after_label l s).
Proof.
  intros Hn Hl. unfold after_label. apply leftmost_append.
  - intros u. apply strip_prefix_ci_append, Hl.
  - intros ws1 ws2 E _. apply strip_prefix_ci_spaces; auto.
    eapply ws_suffix_space, E.
Qed.

Lemma take_while_word_spaces (x : str) :
  take_while isword (x ++ ws) = take_while isword x.
Proof.
  induction x as [|c x IH]; simpl.
  - destruct ws as [|w ws']; [reflexivity|]. simpl in *.
    apply andb_true_iff in ws_space as [Hw _].
    rewrite (space_not_word w Hw). reflexivity.
  - rewrite IH. reflexivity.
Qed.

Lemma lstrip_append (r0 : str) :
  lstrip (r0 ++ ws) = match lstrip r0 with [] => [] | x => x ++ ws end.
Proof.
  destruct (lstrip r0) as [|c t] eqn:E.
  - apply lstrip_nil in E. rewrite lstrip_spaces by exact E.
    apply lstrip_nil, ws_space.
  - rewrite lstrip_app_keep by congruence. rewrite E. reflexivity.
Qed.

Lemma word_after_append (l u : str) :
  forallb (fun c => negb (isspace c)) l = true ->
  word_after l (u ++ ws) = word_after l u.
Proof.
  intros Hl. unfold word_after. rewrite strip_prefix_ci_append by exact Hl.
  destruct (strip_prefix_ci l u) as [r0|]; [|reflexivity]. cbn [option_map].
  rewrite lstrip_append. destruct (lstrip r0) as [|c t]; [reflexivity|].
  rewrite take_while_word_spaces. reflexivity.
Qed.

Lemma first_word_after_append (l s : str) :
  l <> [] -> forallb (fun c => negb (isspace c)) l = true ->
  first_word_after l (s ++ ws) = first_word_after l s.
Proof.
  intros Hn Hl. unfold first_word_after.
  rewrite (leftmost_append (fun w => w) (word_after l) (word_after l)).
  - destruct (leftmost (word_after l) s); reflexivity.
  - intros u. rewrite word_after_append by exact Hl.
    destruct (word_after l u); reflexivity.
  - intros ws1 ws2 E _. apply word_after_label.
    apply strip_prefix_ci_spaces; auto. eapply ws_suffix_space, E.
Qed.

Lemma strip_append (x : str) : strip (x ++ ws) = strip x.
Proof.
  revert ws_space. clear. revert x.
  induction ws as [|w ws' IH] using rev_ind; intros x H.
  - rewrite app_nil_r. reflexivity.
  - rewrite forallb_app in H. apply andb_true_iff in H as [H Hw].
    simpl in Hw. rewrite andb_true_r in Hw.
    rewrite app_assoc, strip_space_r by exact Hw. apply IH, H.
Qed.

Lemma until_label_append (stop t : str) :
  stop <> [] -> forallb (fun c => negb (isspace c)) stop = true ->
  until_label stop (t ++ ws) = until_label stop t \/
  until_label stop (t ++ ws) = until_label stop t ++ ws.
Proof.
  intros Hn Hs. induction t as [|d t IH].
  - right. cbn [app until_label]. apply until_label_absent.
    intros (pre & m & post & E & Hm).
    assert (K : strip_prefix_ci stop (m ++ post) = Some post)
      by (apply strip_prefix_ci_spec; eauto).
    rewrite strip_prefix_ci_spaces in K; [discriminate K | auto | auto|].
    apply (ws_suffix_space pre). exact E.
  - cbn [app until_label]. unfold starts_ci.
    pose proof (strip_prefix_ci_append stop (d :: t) Hs) as E.
    cbn [app] in E. rewrite E.
    destruct (strip_prefix_ci stop (d :: t)); cbn [option_map];
      [left; reflexivity|].
    destruct IH as [-> | ->]; [left | right]; reflexivity.
Qed.

Lemma between_labels_append (l stop s : str) :
  l <> [] -> forallb (fun c => negb (isspace c)) l = true ->
  stop <> [] -> forallb (fun c => negb (isspace c)) stop = true ->
  between_labels l stop (s ++ ws) = between_labels l stop s.
Proof.
  intros Hn Hl Hsn Hs. unfold between_labels.
  rewrite after_label_append by assumption.
  destruct (after_label l s) as [r0|]; [|reflexivity]. cbn [option_map].
  rewrite lstrip_append. destruct (lstrip r0) as [|c t]; [reflexivity|].
  cbn [app]. f_equal.
  destruct (until_label_append stop t Hsn Hs) as [-> | ->]; [reflexivity|].
  change (c :: until_label stop t ++ ws)
    with ((c :: until_label stop t) ++ ws).
  apply strip_append.
Qed.

(** X16: whitespace after the reply, such as a final newline, does not
    change the parse. *)
Theorem trailing_whitespace_is_ignored (s : str) :
  parse_claude_response (s ++ ws) = parse_claude_response s.
Proof.
  rewrite !parse_fields.
  change risk_re with (token_re (chars "RISK_LEVEL:")).
  change conf_re with (token_re (chars "CONFIDENCE:")).
  rewrite !field_token.
  rewrite !first_word_after_append by (discriminate || reflexivity).
  change reason_re
    with (between_re (chars "REASONING:") (chars "RED_FLAGS:")).
  change flags_re
    with (between_re (chars "RED_FLAGS:") (chars "RECOMMENDATIONS:")).
  rewrite !text_between, !flags_between, !field_rec.
  rewrite !between_labels_append by (discriminate || reflexivity).
  rewrite after_label_append by (discriminate || reflexivity).
  destruct (after_label (chars "RECOMMENDATIONS:") s) as [r0|];
    cbn [option_map]; [rewrite strip_append|]; reflexivity.
Qed.
End TrailingSpace.

Lemma trailing_whitespace_is_ignored_witness :
  parse_claude_response (synthetic_reply ++ [nl; nl])
  = parse_claude_response synthetic_reply.
Proof. apply trailing_whitespace_is_ignored. reflexivity. Defined.
